(** * postcactus.timeseries: a shallow embedding and its verification

    The module [postcactus/timeseries.py] represents sampled time series
    and offers functions that clean, merge and resample them.  This file
    embeds the functions of that module in Rocq and proves the properties
    of its specification.

    Conventions of the embedding.

    - A numpy array of floats is a [list Q].  Floats are rationals, and
      all the properties below are about order and exact arithmetic, so
      rounding, infinities and NaN are outside the model.
    - A Python exception is the [Raise] branch of [result]; the
      exception class is kept, since the specification distinguishes
      validation errors from index errors.
    - numpy primitives ([np.minimum.accumulate], boolean-mask indexing,
      [np.linspace], [np.rint], [np.allclose], [np.fft.fftfreq],
      [np.fft.fftshift]) are embedded next to the code that calls them,
      with their behaviour at the boundaries (empty arrays, masks of the
      wrong length) written out. *)

From Stdlib Require Import List Bool Arith ZArith QArith Qround Qabs Qminmax Lia Lqa
  Sorted Permutation.
Import ListNotations.

Local Open Scope Q_scope.

(* ================================================================== *)
(** * Python values: exceptions and results *)
(* ================================================================== *)

Module Py.

Inductive exn : Set :=
| ValueError
| IndexError
| ZeroDivisionError.

Inductive result (A : Type) : Type :=
| Ok (a : A)
| Raise (e : exn).

Arguments Ok {A} a.
Arguments Raise {A} e.

Definition bind {A B : Type} (m : result A) (f : A -> result B) : result B :=
  match m with
  | Ok a => f a
  | Raise e => Raise e
  end.

Definition is_ok {A : Type} (m : result A) : bool :=
  match m with Ok _ => true | Raise _ => false end.

(** [[f(x) for x in l]], evaluated left to right; the first exception
    escapes. *)
Fixpoint mapM {A B : Type} (f : A -> result B) (l : list A) : result (list B) :=
  match l with
  | [] => Ok []
  | x :: l' =>
      bind (f x) (fun b => bind (mapM f l') (fun bs => Ok (b :: bs)))
  end.

(** [l[0]] and [l[-1]] on a sequence: [IndexError] when it is empty. *)
Definition first {A : Type} (l : list A) : result A :=
  match l with
  | [] => Raise IndexError
  | a :: _ => Ok a
  end.

Fixpoint last {A : Type} (l : list A) : result A :=
  match l with
  | [] => Raise IndexError
  | [a] => Ok a
  | _ :: l' => last l'
  end.

(** [l[i]] for a non-negative index. *)
Definition getitem {A : Type} (l : list A) (i : nat) : result A :=
  match nth_error l i with
  | Some a => Ok a
  | None => Raise IndexError
  end.

(** [sorted(l, key=...)]: the keys are computed first, one per element,
    and the sort is stable.  The sort only ever asks [key a < key b].
    A stable sort has one possible outcome, which insertion from the
    right produces. *)
Section Sorted.
Context {K A : Type} (lt : K -> K -> bool).

Fixpoint insert_keyed (x : K * A) (l : list (K * A)) : list (K * A) :=
  match l with
  | [] => [x]
  | y :: l' =>
      if lt (fst y) (fst x) then y :: insert_keyed x l' else x :: y :: l'
  end.

Definition sort_keyed (l : list (K * A)) : list (K * A) :=
  fold_right insert_keyed [] l.

Definition sorted (key : A -> result K) (l : list A) : result (list A) :=
  bind (mapM key l) (fun ks => Ok (map snd (sort_keyed (combine ks l)))).

End Sorted.

(** [max(l, key=...)] and [min(l, key=...)]: the first element whose key
    is largest (smallest); [ValueError] on an empty sequence. *)
Section Extremum.
Context {K A : Type} (lt : K -> K -> bool).

Fixpoint best_keyed (better : K -> K -> bool) (cur : K * A) (l : list (K * A))
  : K * A :=
  match l with
  | [] => cur
  | x :: l' =>
      if better (fst x) (fst cur) then best_keyed better x l'
      else best_keyed better cur l'
  end.

Definition extremum (better : K -> K -> bool) (key : A -> result K)
  (l : list A) : result A :=
  bind (mapM key l) (fun ks =>
    match combine ks l with
    | [] => Raise ValueError
    | x :: rest => Ok (snd (best_keyed better x rest))
    end).

Definition max (key : A -> result K) (l : list A) : result A :=
  extremum (fun new cur => lt cur new) key l.

Definition min (key : A -> result K) (l : list A) : result A :=
  extremum (fun new cur => lt new cur) key l.

End Extremum.

End Py.

Import Py.

Declare Scope py_scope.
Delimit Scope py_scope with py.
Notation "x <- m ;; k" := (bind m (fun x => k))
  (at level 61, m at next level, right associativity) : py_scope.
Notation "' ( x , y ) <- m ;; k" := (bind m (fun '(x, y) => k))
  (at level 61, x name, y name, m at next level, right associativity)
  : py_scope.
Local Open Scope py_scope.

(* ================================================================== *)
(** * numpy primitives *)
(* ================================================================== *)

Module Np.

(** Comparison of two floats, as booleans. *)
Definition ltb (a b : Q) : bool := negb (Qle_bool b a).
Definition leb (a b : Q) : bool := Qle_bool a b.
Definition gtb (a b : Q) : bool := ltb b a.

(** Elementwise operation on two arrays of the same shape. *)
Fixpoint zip_with {A B C : Type} (f : A -> B -> C) (a : list A) (b : list B)
  : list C :=
  match a, b with
  | x :: a', y :: b' => f x y :: zip_with f a' b'
  | _, _ => []
  end.

(** [a[msk]] with a boolean array [msk]: numpy raises [IndexError] when
    the mask and the array differ in length. *)
Fixpoint select {A : Type} (a : list A) (msk : list bool) : list A :=
  match a, msk with
  | x :: a', b :: msk' => if b then x :: select a' msk' else select a' msk'
  | _, _ => []
  end.

Definition mask_index {A : Type} (a : list A) (msk : list bool)
  : result (list A) :=
  if Nat.eqb (length a) (length msk) then Ok (select a msk)
  else Raise IndexError.

(** [a[::sign]] for [sign] in {1, -1}. *)
Definition step_slice {A : Type} (reversed : bool) (a : list A) : list A :=
  if reversed then rev a else a.

(** [np.minimum(a, b)]. *)
Definition minimum (a b : Q) : Q := if Qle_bool a b then a else b.

(** [np.minimum.accumulate(a)]: running minimum from the left. *)
Fixpoint accumulate_from (m : Q) (a : list Q) : list Q :=
  match a with
  | [] => []
  | x :: a' => let m' := minimum m x in m' :: accumulate_from m' a'
  end.

Definition minimum_accumulate (a : list Q) : list Q :=
  match a with
  | [] => []
  | x :: a' => x :: accumulate_from x a'
  end.

(** [a.min()]: [ValueError] on a zero-size array. *)
Definition amin (a : list Q) : result Q :=
  match a with
  | [] => Raise ValueError
  | x :: a' => Ok (fold_left minimum a' x)
  end.

(** [a[1:] - a[:-1]]: consecutive differences. *)
Definition diff (a : list Q) : list Q :=
  zip_with Qminus (tl a) (removelast a).

(** [np.cumsum(a)]. *)
Fixpoint cumsum_from (acc : Q) (a : list Q) : list Q :=
  match a with
  | [] => []
  | x :: a' => let acc' := acc + x in acc' :: cumsum_from acc' a'
  end.

Definition cumsum (a : list Q) : list Q :=
  match a with
  | [] => []
  | x :: a' => x :: cumsum_from x a'
  end.

(** [np.rint(x)]: nearest integer, halves to the even neighbour. *)
Definition rint (x : Q) : Z :=
  let f := Qfloor x in
  let r := x - inject_Z f in
  if ltb r (1 # 2) then f
  else if ltb (1 # 2) r then (f + 1)%Z
  else if Z.even f then f else (f + 1)%Z.


(** [np.linspace(start, stop, num)]: [num] points, the step being
    [(stop - start) / (num - 1)], and the last point set to [stop]. *)
Definition linspace (start stop : Q) (num : nat) : list Q :=
  match num with
  | O => []
  | S O => [start]
  | S (S m as div) =>
      let step := (stop - start) / inject_Z (Z.of_nat div) in
      map (fun k => start + inject_Z (Z.of_nat k) * step) (seq 0 div)
        ++ [stop]
  end.

(** [np.allclose(a, b)] for an array [a] and a scalar [b], with the
    default tolerances [rtol = 1e-05] and [atol = 1e-08]. *)
Definition rtol : Q := 1 # 100000.
Definition atol : Q := 1 # 100000000.

Definition isclose (a b : Q) : bool :=
  Qle_bool (Qabs (a - b)) (atol + rtol * Qabs b).

Definition allclose (a : list Q) (b : Q) : bool :=
  forallb (fun x => isclose x b) a.

(** [np.fft.fftfreq(n, d)]: the bins [0, 1, ..., (n-1)//2] followed by
    [-(n//2), ..., -1], each times [1 / (n * d)]. *)
Definition fftfreq (n : nat) (d : Q) : list Q :=
  let val := 1 / (inject_Z (Z.of_nat n) * d) in
  let N := S ((n - 1) / 2) in
  let p1 := map (fun k => inject_Z (Z.of_nat k)) (seq 0 N) in
  let p2 := map (fun k => inject_Z (Z.of_nat k - Z.of_nat (n / 2)))
                (seq 0 (n / 2)) in
  map (fun k => k * val) (p1 ++ p2).

(** [np.fft.fftshift(x)]: rotate right by [n // 2]. *)
Definition fftshift {A : Type} (x : list A) : list A :=
  let n := length x in
  skipn (n - n / 2) x ++ firstn (n - n / 2) x.

(** [np.pi], the double nearest to pi, as the rational it is. *)
Definition pi : Q := 884279719003555 # 281474976710656.

End Np.

(* ================================================================== *)
(** * The module [postcactus.timeseries] *)
(* ================================================================== *)

(** ** The class [TimeSeries] *)

(** Modelled from the spec: [frequencyseries.FrequencySeries], which
    lives in [postcactus/frequencyseries.py].  It receives a pair of
    arrays, the frequencies and the complex amplitudes. *)
Record FrequencySeries (C : Type) : Type := Build_FrequencySeries {
  fs_f : list Q;
  fs_fft : list C
}.

Arguments Build_FrequencySeries {C} _ _.
Arguments fs_f {C} _.
Arguments fs_fft {C} _.

Section Model.

(** The type of the samples: real or complex numbers.  No function
    below inspects a sample, except through the numerical primitives
    it is handed. *)
Context {V : Type}.

(** The storage of [BaseSeries]: [data_x] and [data_y]. *)
Record TimeSeries : Type := Build_TimeSeries {
  data_x : list Q;
  data_y : list V
}.

(** The properties [t] and [y] read the storage of the base class. *)
Definition t (self : TimeSeries) : list Q := data_x self.
Definition y (self : TimeSeries) : list V := data_y self.

(** Modelled from the spec: [BaseSeries.__init__], which lives in
    [postcactus/series.py].  The base container owns paired arrays of
    abscissa and value; times cannot be empty, and times and values
    must have the same length. *)
Definition BaseSeries_init (x : list Q) (vals : list V) : result TimeSeries :=
  if negb (Nat.eqb (length x) (length vals)) then Raise ValueError
  else if Nat.eqb (length x) 0 then Raise ValueError
  else Ok (Build_TimeSeries x vals).

(** [TimeSeries.__init__].  The values are a sequence here, so the test
    [hasattr(y, '__len__')] holds. *)
Definition TimeSeries_init (times : list Q) (vals : list V)
  : result TimeSeries :=
  _ <- (if Nat.ltb 1 (length times) then
          m <- Np.amin (Np.diff times) ;;
          if Np.leb m 0 then Raise ValueError else Ok tt
        else Ok tt) ;;
  BaseSeries_init times vals.

(** [len(self)], from the base class: the number of points. *)
Definition len (self : TimeSeries) : nat := length (t self).

Definition tmin (self : TimeSeries) : result Q := Py.first (t self).

Definition tmax (self : TimeSeries) : result Q := Py.last (t self).

Definition dt (self : TimeSeries) : result Q :=
  let d := Np.diff (t self) in
  dt0 <- Py.getitem d 0 ;;
  if negb (Np.allclose d dt0) then Raise ValueError else Ok dt0.

Definition time_length (self : TimeSeries) : result Q :=
  b <- tmax self ;;
  a <- tmin self ;;
  Ok (b - a).

(** *** Resampling *)

(** The interpolant of the samples [(x_old, y_old)], evaluated at a
    point: the numerical primitive behind [resampled]. *)
Variable interpolate : list Q -> list V -> Q -> V.

(** Modelled from the spec: [BaseSeries.resampled], which lives in
    [postcactus/series.py].  It returns a new series over the given
    times, the values obtained by interpolation. *)
Definition resampled (self : TimeSeries) (new_times : list Q)
  : result TimeSeries :=
  TimeSeries_init new_times
    (map (interpolate (t self) (y self)) new_times).

Definition regular_resampled (self : TimeSeries) : result TimeSeries :=
  a <- tmin self ;;
  b <- tmax self ;;
  resampled self (Np.linspace a b (len self)).


(** *** Smoothing *)

(** The Savitzky-Golay filter [signal.savgol_filter(y, window, order)]. *)
Variable savgol_filter : list V -> Z -> Z -> list V.

(** Modelled from the spec: [BaseSeries.savgol_smoothed], which lives
    in [postcactus/series.py].  It returns a new series with the same
    times, the values smoothed by the filter of that window and order. *)
Definition savgol_smoothed (self : TimeSeries) (window order : Z)
  : result TimeSeries :=
  TimeSeries_init (t self) (savgol_filter (y self) window order).

(** The window of [savgol_smoothed_time]: [rint(tsmooth / dt)], plus
    one when even. *)
Definition savgol_window (tsmooth dt : Q) : Z :=
  let window := Np.rint (tsmooth / dt) in
  if Z.eqb (window mod 2) 0 then (window + 1)%Z else window.

(** [ts] is a series that the constructor accepted, so [ts.t[1]] and
    [ts.t[0]] differ whenever both exist. *)
Definition savgol_smoothed_time (self : TimeSeries) (tsmooth : Q) (order : Z)
  : result TimeSeries :=
  ts <- regular_resampled self ;;
  t1 <- Py.getitem (t ts) 1 ;;
  t0 <- Py.getitem (t ts) 0 ;;
  let dt := t1 - t0 in
  let window := savgol_window tsmooth dt in
  savgol_smoothed self window order.

(** *** Fourier transform *)

(** The discrete Fourier transform [np.fft.fft], with amplitudes in
    some type [C] of complex numbers. *)
Context {C : Type}.
Variable fft : list V -> list C.

Definition to_FrequencySeries (self : TimeSeries)
  : result (FrequencySeries C) :=
  regular_ts <- regular_resampled self ;;
  d <- dt regular_ts ;;
  let freqencies := Np.fftfreq (len regular_ts) d in
  let ft := fft (y regular_ts) in
  let f := Np.fftshift freqencies in
  let ft := Np.fftshift ft in
  Ok (Build_FrequencySeries f ft).

(** ** The functions of the module *)

Definition remove_duplicate_iters (times : list Q) (vals : list V)
  : result TimeSeries :=
  let t2 := rev (Np.minimum_accumulate (rev times)) in
  let msk := Np.zip_with Np.ltb (removelast times) (tl t2) ++ [true] in
  t' <- Np.mask_index times msk ;;
  y' <- Np.mask_index vals msk ;;
  TimeSeries_init t' y'.

(** The key of the sort in [combine_ts] is a pair, and Python compares
    tuples lexicographically. *)
Definition tuple_ltb (a b : Q * Q) : bool :=
  if Qeq_bool (fst a) (fst b) then Np.ltb (snd a) (snd b)
  else Np.ltb (fst a) (fst b).

Definition combine_key (sign : Q) (x : TimeSeries) : result (Q * Q) :=
  a <- tmin x ;;
  b <- tmax x ;;
  Ok (sign * a, sign * b).

(** One turn of the loop of [combine_ts]. *)
Definition combine_step (prefer_late : bool)
  (acc : result (list Q * list V)) (s : TimeSeries)
  : result (list Q * list V) :=
  '(times, values) <- acc ;;
  let s_t := Np.step_slice prefer_late (t s) in
  let s_y := Np.step_slice prefer_late (y s) in
  final <- Py.last times ;;
  let msk := if prefer_late then map (fun x => Np.ltb x final) s_t
             else map (fun x => Np.gtb x final) s_t in
  new_t <- Np.mask_index s_t msk ;;
  new_y <- Np.mask_index s_y msk ;;
  Ok (times ++ new_t, values ++ new_y).

(** [sign] is -1 exactly when [prefer_late] holds, so [a[::sign]]
    reverses exactly then. *)
Definition combine_ts (series : list TimeSeries) (prefer_late : bool)
  : result TimeSeries :=
  let sign := if prefer_late then - (1) else 1 in
  timeseries <- Py.sorted tuple_ltb (combine_key sign) series ;;
  s0 <- Py.first timeseries ;;
  let times := Np.step_slice prefer_late (t s0) in
  let values := Np.step_slice prefer_late (y s0) in
  '(times, values) <-
     fold_left (combine_step prefer_late) (tl timeseries)
       (Ok (times, values)) ;;
  TimeSeries_init (Np.step_slice prefer_late times)
    (Np.step_slice prefer_late values).

Definition sample_common (series : list TimeSeries)
  : result (list TimeSeries) :=
  s_tmin <- Py.max Np.ltb tmin series ;;
  s_tmax <- Py.min Np.ltb tmax series ;;
  s_ns <- Py.min Nat.ltb (fun s => Ok (len s)) series ;;
  a <- tmin s_tmin ;;
  b <- tmax s_tmax ;;
  let grid := Np.linspace a b (len s_ns) in
  Py.mapM (fun s => resampled s grid) series.

End Model.

Arguments TimeSeries : clear implicits.

(** [unfold_phase] works on an array of phases. *)
Definition unfold_phase (phase : list Q) : list Q :=
  let two_pi := 2 * Np.pi in
  let nph := map (fun p => p / two_pi) phase in
  let wind :=
    match phase with
    | [] => []
    | _ :: _ =>
        0 :: map (fun d => inject_Z (Np.rint d))
               (Np.zip_with Qminus (removelast nph) (tl nph))
    end in
  let wind := Np.cumsum wind in
  Np.zip_with (fun p w => p + two_pi * w) phase wind.

(** ** More methods of [TimeSeries] *)

Section Transforms.
Context {V : Type}.
Implicit Types (self : TimeSeries V).

Variable interpolate : list Q -> list V -> Q -> V.





(** The sample [0.0] that [np.zeros] fills with. *)
Variable zero : V.


End Transforms.

(** [a.mean()] of an array of reals. *)
Definition mean (a : list Q) : Q :=
  fold_left Qplus a 0 / inject_Z (Z.of_nat (length a)).

(** [mean_removed] on a series of real values. *)
Definition mean_removed (self : TimeSeries Q) : result (TimeSeries Q) :=
  TimeSeries_init (t self) (map (fun v => v - mean (y self)) (y self)).

(* ================================================================== *)
(** * Vocabulary of the specification *)
(* ================================================================== *)

(** A time array is strictly increasing when each sample is later than
    the one before it. *)
Definition strictly_increasing (l : list Q) : Prop :=
  forall i, (S i < length l)%nat -> nth i l 0 < nth (S i) l 0.

(** The same, as a test on adjacent samples. *)
Fixpoint increasingb (l : list Q) : bool :=
  match l with
  | a :: (b :: _) as l' => Np.ltb a b && increasingb l'
  | _ => true
  end.

(** A series that the constructor accepts: the objects of the class
    are exactly these. *)
Definition valid {V : Type} (s : TimeSeries V) : Prop :=
  TimeSeries_init (t s) (y s) = Ok s.

(** ** Removing duplicate iterations *)

(** The smallest element of a non-empty array [x :: l]. *)
Fixpoint minimum_of (x : Q) (l : list Q) : Q :=
  match l with
  | [] => x
  | x' :: l' => Qmin x (minimum_of x' l')
  end.

(** The minimum of the times over all positions after [i], when there
    is such a position. *)
Definition min_after (times : list Q) (i : nat) : option Q :=
  match skipn (S i) times with
  | [] => None
  | x :: l => Some (minimum_of x l)
  end.

(** The rule of the specification: the last sample is kept, and a
    sample before it is kept when its time is smaller than the minimum
    of the times after it. *)
Definition keeps (times : list Q) (i : nat) : bool :=
  match min_after times i with
  | Some m => Np.ltb (nth i times 0) m
  | None => Nat.eqb (S i) (length times)
  end.

Definition kept_positions (times : list Q) : list nat :=
  filter (keeps times) (seq 0 (length times)).

(** The elements of an array at the given positions, in that order. *)
Definition samples_at {A : Type} (a : list A) (positions : list nat) : list A :=
  flat_map (fun i => match nth_error a i with
                     | Some x => [x]
                     | None => []
                     end) positions.

(** ** Combining series *)

Section SeriesVocabulary.
Context {V : Type}.

(** First and last time of a series; these are [tmin] and [tmax] on a
    series that is not empty. *)
Definition start (s : TimeSeries V) : Q := hd 0 (t s).
Definition stop (s : TimeSeries V) : Q := List.last (t s) 0.

(** The samples of a series: pairs of a time and the value there. *)
Definition samples (s : TimeSeries V) : list (Q * V) := combine (t s) (y s).

(** The time [x] lies in the interval a series covers. *)
Definition covers (s : TimeSeries V) (x : Q) : Prop :=
  start s <= x /\ x <= stop s.

(** The sort key of [combine_ts] on a series that is not empty. *)
Definition key_of (prefer_late : bool) (s : TimeSeries V) : Q * Q :=
  let sign := if prefer_late then - (1) else 1 in
  (sign * start s, sign * stop s).

(** The inputs of [combine_ts] in the order the sort puts them. *)
Definition ordered (prefer_late : bool) (series : list (TimeSeries V))
  : list (TimeSeries V) :=
  map snd (Py.sort_keyed tuple_ltb
             (map (fun s => (key_of prefer_late s, s)) series)).

(** C3 as stated: a sample of an input that no other input covers is
    a sample of the result. *)
Definition preserves_uncovered (series : list (TimeSeries V))
  (r : TimeSeries V) : Prop :=
  forall s x v, In s series -> In (x, v) (samples s) ->
    (forall s', In s' series -> s' <> s -> ~ covers s' x) ->
    In (x, v) (samples r).

End SeriesVocabulary.

(** ** Unfolding a phase *)

Definition two_pi : Q := 2 * Np.pi.




(** ** Sampling on a common grid *)

Section CommonVocabulary.
Context {V : Type}.

(** [a] is the largest start, [b] the smallest end and [n] the smallest
    number of points among the series. *)
Definition is_max_tmin (series : list (TimeSeries V)) (a : Q) : Prop :=
  (exists s, In s series /\ start s = a) /\
  forall s, In s series -> start s <= a.



End CommonVocabulary.

(** ** Sample data *)

(** A series over [1, 2, 3, 4] and one nested inside it. *)
Definition outer_series : TimeSeries Z :=
  Build_TimeSeries [1; 2; 3; 4] [11; 12; 13; 14]%Z.
Definition inner_series : TimeSeries Z :=
  Build_TimeSeries [2; 3] [22; 23]%Z.

Definition early_series : TimeSeries Z :=
  Build_TimeSeries [0; 1; 2] [5; 6; 7]%Z.
Definition late_point : TimeSeries Z := Build_TimeSeries [5] [9]%Z.

(** An interpolation to run the examples with: the value is the floor
    of the time. *)
Definition floor_interpolate (x_old : list Q) (y_old : list Z) (x : Q) : Z :=
  Qfloor x.

(** ** Comparing series *)


(* ================================================================== *)
(** * Auxiliary definitions for the proofs *)
(* ================================================================== *)

(** ** Removing duplicate iterations *)

(** [t2] of the source, computed from the right. *)
Fixpoint suffix_min (l : list Q) : list Q :=
  match l with
  | [] => []
  | x :: l' =>
      match suffix_min l' with
      | [] => [x]
      | (m :: _) as r => Np.minimum m x :: r
      end
  end.

(** The mask [msk] of the source, for the times [l]. *)
Definition dedup_mask (l : list Q) : list bool :=
  Np.zip_with Np.ltb (removelast l) (tl (suffix_min l)) ++ [true].

(** ** Sorting *)

Section KeyOrder.
Context {K A : Type} (lt : K -> K -> bool).

(** [a] may come before [b]: the sort never finds [b < a]. *)
Definition key_le (a b : K * A) : Prop := lt (fst b) (fst a) = false.

End KeyOrder.

(** ** Combining series *)

Section MergeVocabulary.
Context {V : Type}.
Implicit Types (s : TimeSeries V) (acc : list (Q * V)).

(** With [prefer_late] the series come by decreasing start and, among
    equal starts, by decreasing end. *)
Definition late_order (a b : TimeSeries V) : Prop :=
  start b < start a \/ (start a == start b /\ stop b <= stop a).

(** Without it they come by increasing start and, among equal starts,
    by increasing end. *)
Definition early_order (a b : TimeSeries V) : Prop :=
  start a < start b \/ (start a == start b /\ stop a <= stop b).

(** The accumulated arrays [times] and [values], as one list of
    samples; with [prefer_late] it runs from the latest time down. *)
Definition time_last acc : Q := List.last (map fst acc) 0.

Definition before (m : Q) (p : Q * V) : bool := Np.ltb (fst p) m.

(** What the loop appends for the series still to come, when the
    earliest time collected so far is [m]. *)
Fixpoint late_fill (m : Q) (rest : list (TimeSeries V)) : list (Q * V) :=
  match rest with
  | [] => []
  | s :: rest' =>
      filter (before m) (rev (samples s)) ++ late_fill (start s) rest'
  end.

(** Samples from the latest time down. *)
Definition descending (l : list (Q * V)) : Prop :=
  StronglySorted (fun a b => fst b < fst a) l.

(** The samples of the result of [combine_ts] with [prefer_late], for
    the inputs in sorted order. *)
Definition late_merge (ss : list (TimeSeries V)) : list (Q * V) :=
  match ss with
  | [] => []
  | s0 :: rest => rev (rev (samples s0) ++ late_fill (start s0) rest)
  end.

End MergeVocabulary.

(** ** Unfolding a phase *)

(** The output from the second sample on: [w] is the winding number so
    far and [prev] the phase before. *)
Fixpoint unfold_from (w prev : Q) (rest : list Q) : list Q :=
  match rest with
  | [] => []
  | cur :: rest' =>
      let w' := w + inject_Z (Np.rint (prev / two_pi - cur / two_pi)) in
      (cur + two_pi * w') :: unfold_from w' cur rest'
  end.


(** ** Combining series, earlier data preferred *)

Section EarlyVocabulary.
Context {V : Type}.

Definition after (m : Q) (p : Q * V) : bool := Np.gtb (fst p) m.

(** The latest time collected once a series that ends at [b] has been
    through the loop, when it was [m] before. *)
Definition later_end (m b : Q) : Q := if Np.ltb m b then b else m.

(** What the loop appends for the series still to come, when the
    latest time collected so far is [m]. *)
Fixpoint early_fill (m : Q) (rest : list (TimeSeries V)) : list (Q * V) :=
  match rest with
  | [] => []
  | s :: rest' =>
      filter (after m) (samples s) ++ early_fill (later_end m (stop s)) rest'
  end.

(** The samples of the result of [combine_ts] without [prefer_late],
    for the inputs in sorted order. *)
Definition early_merge (ss : list (TimeSeries V)) : list (Q * V) :=
  match ss with
  | [] => []
  | s0 :: rest => samples s0 ++ early_fill (stop s0) rest
  end.

End EarlyVocabulary.

(** ** Unfolding a phase *)

(** Each element of [l] is within [pi] of the one before it, [prev]
    coming first. *)
Fixpoint close_steps (prev : Q) (l : list Q) : Prop :=
  match l with
  | [] => True
  | x :: l' => Qabs (x - prev) <= Np.pi /\ close_steps x l'
  end.

(* ================================================================== *)
(** * Basic facts about the primitives *)
(* ================================================================== *)

Lemma ltb_lt (a b : Q) : Np.ltb a b = true <-> a < b.
Proof.
  unfold Np.ltb. rewrite negb_true_iff, <- not_true_iff_false, Qle_bool_iff.
  split; [apply Qnot_le_lt | apply Qlt_not_le].
Qed.

Lemma ltb_ge (a b : Q) : Np.ltb a b = false <-> b <= a.
Proof.
  unfold Np.ltb. rewrite negb_false_iff. apply Qle_bool_iff.
Qed.

Lemma leb_le (a b : Q) : Np.leb a b = true <-> a <= b.
Proof. apply Qle_bool_iff. Qed.

Lemma leb_gt (a b : Q) : Np.leb a b = false <-> b < a.
Proof.
  unfold Np.leb. rewrite <- not_true_iff_false, Qle_bool_iff.
  split; [apply Qnot_le_lt | apply Qlt_not_le].
Qed.

Lemma gtb_gt (a b : Q) : Np.gtb a b = true <-> b < a.
Proof. apply ltb_lt. Qed.

(** Case analysis on a comparison, leaving the order fact in context. *)
Ltac case_ltb a b :=
  let H := fresh "Hcmp" in
  destruct (Np.ltb a b) eqn:H;
  [apply ltb_lt in H | apply ltb_ge in H].

Ltac case_leb a b :=
  let H := fresh "Hcmp" in
  destruct (Np.leb a b) eqn:H;
  [apply leb_le in H | apply leb_gt in H].

Lemma minimum_le (a b c : Q) :
  Np.leb (Np.minimum a b) c = Np.leb a c || Np.leb b c.
Proof.
  unfold Np.minimum. destruct (Qle_bool a b) eqn:Hab.
  - apply Qle_bool_iff in Hab.
    case_leb a c; [reflexivity|]. simpl. symmetry. apply leb_gt. lra.
  - apply leb_gt in Hab.
    case_leb b c; [now rewrite orb_true_r|].
    rewrite orb_false_r. symmetry. apply leb_gt. lra.
Qed.

Lemma diff_cons (a b : Q) (l : list Q) :
  Np.diff (a :: b :: l) = (b - a) :: Np.diff (b :: l).
Proof. reflexivity. Qed.

Lemma increasingb_cons (a b : Q) (l : list Q) :
  increasingb (a :: b :: l) = Np.ltb a b && increasingb (b :: l).
Proof. reflexivity. Qed.

(** The smallest difference is non-positive exactly when the array is
    not increasing. *)
Lemma min_diff_le_0 (l : list Q) (b m : Q) :
  Np.leb (fold_left Np.minimum (Np.diff (b :: l)) m) 0
  = Np.leb m 0 || negb (increasingb (b :: l)).
Proof.
  revert b m. induction l as [|c l IH]; intros b m.
  - simpl. now rewrite orb_false_r.
  - rewrite diff_cons, increasingb_cons. cbn [fold_left].
    rewrite IH, minimum_le, negb_andb, <- orb_assoc. f_equal. f_equal.
    case_ltb b c; case_leb (c - b) 0; try reflexivity; lra.
Qed.

Lemma increasingb_spec (l : list Q) :
  increasingb l = true <-> strictly_increasing l.
Proof.
  unfold strictly_increasing.
  induction l as [|a [|b l] IH].
  - split; [intros _ i Hi; simpl in Hi; lia | reflexivity].
  - split; [intros _ i Hi; simpl in Hi; lia | reflexivity].
  - rewrite increasingb_cons, andb_true_iff, ltb_lt, IH. split.
    + intros [Hab Hl] [|i] Hi; [exact Hab|].
      apply (Hl i). simpl in Hi |- *. lia.
    + intros H. split.
      * apply (H 0%nat). simpl. lia.
      * intros i Hi. apply (H (S i)). simpl in Hi |- *. lia.
Qed.

(** What the constructor does, in one line. *)
Lemma TimeSeries_init_unfold {V : Type} (times : list Q) (vals : list V) :
  TimeSeries_init times vals =
  if increasingb times then BaseSeries_init times vals else Raise ValueError.
Proof.
  unfold TimeSeries_init.
  destruct times as [|a [|b l]]; try reflexivity.
  cbn [length Nat.ltb Nat.leb]. rewrite diff_cons. cbn [Np.amin bind].
  rewrite min_diff_le_0, increasingb_cons.
  case_ltb a b; case_leb (b - a) 0; try lra; cbn [orb andb negb].
  - now destruct (increasingb (b :: l)).
  - reflexivity.
Qed.

Lemma TimeSeries_init_ok {V : Type} (times : list Q) (vals : list V) :
  times <> [] -> length vals = length times -> strictly_increasing times ->
  TimeSeries_init times vals = Ok (Build_TimeSeries times vals).
Proof.
  intros Hne Hlen Hinc. rewrite TimeSeries_init_unfold.
  apply increasingb_spec in Hinc. rewrite Hinc. unfold BaseSeries_init.
  rewrite Hlen, Nat.eqb_refl. cbn [negb].
  destruct times; [contradiction | reflexivity].
Qed.

Lemma TimeSeries_init_inv {V : Type} (times : list Q) (vals : list V) s :
  TimeSeries_init times vals = Ok s ->
  s = Build_TimeSeries times vals /\ times <> [] /\
  length vals = length times /\ strictly_increasing times.
Proof.
  rewrite TimeSeries_init_unfold.
  destruct (increasingb times) eqn:Hinc; [|discriminate].
  unfold BaseSeries_init.
  destruct (Nat.eqb (length times) (length vals)) eqn:Hlen; [|discriminate].
  cbn [negb]. destruct (Nat.eqb (length times) 0) eqn:Hz; [discriminate|].
  intros [= <-]. apply Nat.eqb_eq in Hlen. apply Nat.eqb_neq in Hz.
  repeat split; auto.
  - intros ->. now apply Hz.
  - now apply increasingb_spec.
Qed.

Lemma valid_inv {V : Type} (s : TimeSeries V) :
  valid s ->
  t s <> [] /\ length (y s) = length (t s) /\ strictly_increasing (t s).
Proof.
  intros H. apply TimeSeries_init_inv in H. tauto.
Qed.

Lemma valid_intro {V : Type} (s : TimeSeries V) :
  t s <> [] -> length (y s) = length (t s) -> strictly_increasing (t s) ->
  valid s.
Proof.
  intros. unfold valid. rewrite TimeSeries_init_ok by assumption.
  now destruct s.
Qed.

(* ================================================================== *)
(** * Construction *)
(* ================================================================== *)

Section Construction.
Context {V : Type}.

(** C1.  Let [times] and [vals] have the same length.  When [times] has
    more than one element, the constructor returns the series if
    [times] is strictly increasing, and raises [ValueError] if some
    adjacent difference [times[i+1] - times[i]] is non-positive.  When
    [times] has a single element the check is skipped and the series is
    returned. *)
Theorem init_monotonic (times : list Q) (vals : list V)
  (Hlen : length vals = length times) :
  ((1 < length times)%nat -> strictly_increasing times ->
     TimeSeries_init times vals = Ok (Build_TimeSeries times vals)) /\
  ((1 < length times)%nat ->
     (exists i, (S i < length times)%nat /\
                nth (S i) times 0 - nth i times 0 <= 0) ->
     TimeSeries_init times vals = Raise ValueError) /\
  (length times = 1%nat ->
     TimeSeries_init times vals = Ok (Build_TimeSeries times vals)).
Proof.
  repeat split.
  - intros Hgt Hinc. apply TimeSeries_init_ok; auto.
    intros ->. simpl in Hgt. lia.
  - intros _ (i & Hi & Hd). rewrite TimeSeries_init_unfold.
    destruct (increasingb times) eqn:Hinc; [|reflexivity].
    apply increasingb_spec in Hinc. specialize (Hinc i Hi). lra.
  - intros H1. destruct times as [|a [|b l]]; try discriminate.
    destruct vals as [|v [|w vals]]; try discriminate. reflexivity.
Qed.

End Construction.

Lemma init_monotonic_witness :
  TimeSeries_init [1; 2; 4] [7; 8; 9]%Z
    = Ok (Build_TimeSeries [1; 2; 4] [7; 8; 9]%Z) /\
  TimeSeries_init [1; 3; 3] [7; 8; 9]%Z = Raise ValueError /\
  TimeSeries_init [5] [7]%Z = Ok (Build_TimeSeries [5] [7]%Z).
Proof.
  split; [|split].
  - apply (proj1 (init_monotonic [1; 2; 4] [7; 8; 9]%Z eq_refl)).
    + simpl; lia.
    + intros [|[|i]] Hi; simpl in Hi |- *; try lia; reflexivity.
  - apply (proj1 (proj2 (init_monotonic [1; 3; 3] [7; 8; 9]%Z eq_refl))).
    + simpl; lia.
    + exists 1%nat. split; [simpl; lia | vm_compute; discriminate].
  - apply (proj2 (proj2 (init_monotonic [5] [7]%Z eq_refl))). reflexivity.
Defined.

(* ================================================================== *)
(** * Removing duplicate iterations *)
(* ================================================================== *)

(** ** The suffix minimum *)

Lemma last_default {A : Type} (l : list A) (d d' : A) :
  l <> [] -> List.last l d = List.last l d'.
Proof.
  induction l as [|a [|b l] IH]; intros H; [contradiction|reflexivity|].
  change (List.last (b :: l) d = List.last (b :: l) d').
  apply IH. discriminate.
Qed.

Lemma last_cons {A : Type} (l : list A) (a d : A) :
  List.last (a :: l) d = List.last l a.
Proof.
  destruct l as [|b l]; [reflexivity|].
  change (List.last (b :: l) d = List.last (b :: l) a).
  apply last_default. discriminate.
Qed.

Lemma accumulate_from_app (m : Q) (a b : list Q) :
  Np.accumulate_from m (a ++ b)
  = Np.accumulate_from m a
      ++ Np.accumulate_from (List.last (Np.accumulate_from m a) m) b.
Proof.
  revert m. induction a as [|x a IH]; intros m; [reflexivity|].
  cbn [app Np.accumulate_from]. rewrite IH, last_cons. reflexivity.
Qed.

Lemma minimum_accumulate_snoc (a : list Q) (x : Q) :
  a <> [] ->
  Np.minimum_accumulate (a ++ [x])
  = Np.minimum_accumulate a
      ++ [Np.minimum (List.last (Np.minimum_accumulate a) 0) x].
Proof.
  destruct a as [|y a]; [contradiction|]. intros _.
  cbn [app Np.minimum_accumulate]. rewrite accumulate_from_app, last_cons.
  reflexivity.
Qed.

Lemma minimum_accumulate_nil_iff (a : list Q) :
  Np.minimum_accumulate a = [] <-> a = [].
Proof. destruct a; split; intros; try discriminate; reflexivity. Qed.

Lemma last_hd_rev {A : Type} (l : list A) (d : A) :
  List.last l d = hd d (rev l).
Proof.
  destruct l as [|a l] using rev_ind; [reflexivity|].
  now rewrite last_last, rev_app_distr.
Qed.

Lemma suffix_min_nil_iff (l : list Q) : suffix_min l = [] <-> l = [].
Proof.
  destruct l as [|x l]; [tauto|]. cbn [suffix_min].
  destruct (suffix_min l); split; discriminate.
Qed.

Lemma suffix_min_correct (l : list Q) :
  rev (Np.minimum_accumulate (rev l)) = suffix_min l.
Proof.
  induction l as [|x l IH]; [reflexivity|].
  change (rev (x :: l)) with (rev l ++ [x]).
  destruct l as [|x' l'] eqn:El; [reflexivity|]. rewrite <- El in *.
  assert (Hne : l <> []) by (rewrite El; discriminate).
  rewrite minimum_accumulate_snoc
    by (intros H; apply Hne; rewrite <- (rev_involutive l), H; reflexivity).
  rewrite rev_app_distr. cbn [rev app]. rewrite last_hd_rev, IH.
  cbn [suffix_min]. destruct (suffix_min l) as [|m r] eqn:E; [|reflexivity].
  apply (proj1 (suffix_min_nil_iff l)) in E. contradiction.
Qed.

Lemma ltb_minimum (a b c : Q) :
  Np.ltb a (Np.minimum b c) = Np.ltb a b && Np.ltb a c.
Proof.
  unfold Np.minimum. destruct (Qle_bool b c) eqn:Hbc.
  - apply Qle_bool_iff in Hbc. case_ltb a b; [|reflexivity].
    symmetry. apply ltb_lt. lra.
  - apply leb_gt in Hbc. case_ltb a c; [|now rewrite andb_false_r].
    rewrite andb_true_r. symmetry. apply ltb_lt. lra.
Qed.

Lemma ltb_Qmin (a b c : Q) :
  Np.ltb a (Qmin b c) = Np.ltb a b && Np.ltb a c.
Proof.
  apply eq_true_iff_eq.
  rewrite andb_true_iff, !ltb_lt. apply Q.min_glb_lt_iff.
Qed.

Lemma ltb_minimum_of (a x : Q) (l : list Q) :
  Np.ltb a (minimum_of x l) = forallb (Np.ltb a) (x :: l).
Proof.
  revert x. induction l as [|x' l IH]; intros x.
  - simpl. now rewrite andb_true_r.
  - cbn [minimum_of]. rewrite ltb_Qmin, IH. reflexivity.
Qed.

Lemma ltb_suffix_min_hd (a m : Q) (l r : list Q) :
  suffix_min l = m :: r -> Np.ltb a m = forallb (Np.ltb a) l.
Proof.
  revert m r. induction l as [|x l IH]; intros m r; [discriminate|].
  cbn [suffix_min forallb].
  destruct (suffix_min l) as [|m' r'] eqn:E.
  - apply (proj1 (suffix_min_nil_iff l)) in E. subst l.
    intros [= <- <-]. simpl. now rewrite andb_true_r.
  - intros [= <- <-]. rewrite ltb_minimum, (IH m' r' eq_refl).
    apply andb_comm.
Qed.

(** ** The mask *)

Lemma dedup_mask_cons (x : Q) (l : list Q) :
  l <> [] -> dedup_mask (x :: l) = forallb (Np.ltb x) l :: dedup_mask l.
Proof.
  intros Hne. unfold dedup_mask. cbn [suffix_min].
  destruct (suffix_min l) as [|m r] eqn:E.
  - apply (proj1 (suffix_min_nil_iff l)) in E. contradiction.
  - rewrite <- (ltb_suffix_min_hd x m l r E).
    destruct l as [|x' l]; [contradiction|]. reflexivity.
Qed.

Lemma dedup_mask_length (l : list Q) :
  l <> [] -> length (dedup_mask l) = length l.
Proof.
  induction l as [|x [|x' l] IH]; intros H; [contradiction|reflexivity|].
  rewrite dedup_mask_cons by discriminate.
  cbn [length]. f_equal. apply IH. discriminate.
Qed.

Lemma skipn_past {A : Type} (pre : list A) (x : A) (l : list A) :
  skipn (S (length pre)) (pre ++ x :: l) = l.
Proof. induction pre as [|p pre IH]; [reflexivity | exact IH]. Qed.

Lemma keeps_at (pre : list Q) (x : Q) (l : list Q) :
  keeps (pre ++ x :: l) (length pre) = forallb (Np.ltb x) l.
Proof.
  unfold keeps, min_after. rewrite skipn_past.
  destruct l as [|x' l].
  - rewrite length_app. cbn [length forallb]. apply Nat.eqb_eq. lia.
  - rewrite app_nth2, Nat.sub_diag by lia. cbn [nth].
    apply ltb_minimum_of.
Qed.

Lemma nth_cons_S {A : Type} (k : nat) (x : A) (l : list A) (d : A) :
  nth (S k) (x :: l) d = nth k l d.
Proof. reflexivity. Qed.

(** The rule, read on the positions. *)
Lemma keeps_spec (times : list Q) (i : nat) :
  keeps times i = true <->
  (S i = length times \/
   ((S i < length times)%nat /\
    forall j, (i < j < length times)%nat -> nth i times 0 < nth j times 0)).
Proof.
  destruct (Nat.lt_ge_cases i (length times)) as [Hi|Hi].
  - destruct (nth_split times 0 Hi) as (pre & post & Heq & Hpre).
    set (x := nth i times 0) in *. clearbody x. subst times i.
    rewrite keeps_at, forallb_forall, length_app. cbn [length]. split.
    + intros Hall. destruct post as [|p post]; [left; simpl; lia|].
      right. split; [simpl; lia|].
      intros j Hj. apply ltb_lt, Hall.
      rewrite app_nth2 by lia.
      replace (j - length pre)%nat with (S (j - S (length pre))) by lia.
      rewrite nth_cons_S. apply nth_In. cbn [length] in Hj |- *. lia.
    + intros [Hlast|[_ Hlater]] z Hz.
      * destruct post; [destruct Hz | simpl in Hlast; lia].
      * apply ltb_lt. destruct (In_nth _ _ 0 Hz) as (k & Hk & <-).
        specialize (Hlater (S (length pre) + k)%nat).
        rewrite app_nth2 in Hlater by lia.
        replace (S (length pre) + k - length pre)%nat with (S k) in Hlater
          by lia.
        rewrite nth_cons_S in Hlater. apply Hlater. lia.
  - unfold keeps, min_after. rewrite skipn_all2 by lia. split.
    + intros H. apply Nat.eqb_eq in H. lia.
    + intros [H|[H _]]; lia.
Qed.

(** The mask of the source is the rule of the specification, position
    by position. *)
Lemma dedup_mask_keeps (pre l : list Q) :
  l <> [] ->
  dedup_mask l = map (keeps (pre ++ l)) (seq (length pre) (length l)).
Proof.
  revert pre. induction l as [|x l IH]; intros pre Hne; [contradiction|].
  cbn [length seq map]. rewrite keeps_at. destruct l as [|x' l].
  - reflexivity.
  - rewrite dedup_mask_cons by discriminate. f_equal.
    specialize (IH (pre ++ [x])). rewrite <- app_assoc in IH.
    rewrite length_app, Nat.add_comm in IH. apply IH. discriminate.
Qed.

(** Selecting with a mask that is a test of the positions gives the
    samples at the positions that pass the test. *)
Lemma select_positions {A : Type} (f : nat -> bool) (pre l : list A) :
  Np.select l (map f (seq (length pre) (length l)))
  = samples_at (pre ++ l) (filter f (seq (length pre) (length l))).
Proof.
  revert pre. induction l as [|x l IH]; intros pre; [reflexivity|].
  cbn [length seq map Np.select filter].
  specialize (IH (pre ++ [x])).
  rewrite <- app_assoc, length_app, Nat.add_comm in IH. cbn [app plus length] in IH.
  destruct (f (length pre)).
  - unfold samples_at in *. cbn [flat_map].
    rewrite nth_error_app2, Nat.sub_diag by lia. cbn [nth_error app].
    f_equal. exact IH.
  - exact IH.
Qed.

Lemma select_length {A B : Type} (a : list A) (b : list B) (msk : list bool) :
  length a = length b ->
  length (Np.select a msk) = length (Np.select b msk).
Proof.
  revert b msk. induction a as [|x a IH]; intros [|y b] msk H;
    try discriminate; [reflexivity|].
  destruct msk as [|[|] msk]; cbn [Np.select length]; auto.
Qed.

Lemma select_In {A : Type} (a : list A) (msk : list bool) (x : A) :
  In x (Np.select a msk) -> In x a.
Proof.
  revert msk. induction a as [|y a IH]; intros [|[|] msk]; cbn [Np.select];
    try contradiction.
  - intros [->|H]; [now left | right; eauto].
  - intros H; right; eauto.
Qed.

(** ** The result is increasing *)

Lemma select_cons {A : Type} (x : A) (a : list A) (b : bool) (msk : list bool) :
  Np.select (x :: a) (b :: msk)
  = if b then x :: Np.select a msk else Np.select a msk.
Proof. reflexivity. Qed.

Lemma increasingb_cons_all (x : Q) (l : list Q) :
  (forall z, In z l -> x < z) -> increasingb l = true ->
  increasingb (x :: l) = true.
Proof.
  intros Hall Hinc. destruct l as [|z l]; [reflexivity|].
  rewrite increasingb_cons, Hinc, andb_true_r. apply ltb_lt, Hall. now left.
Qed.

Lemma dedup_select_increasing (l : list Q) :
  l <> [] -> increasingb (Np.select l (dedup_mask l)) = true.
Proof.
  induction l as [|x l IH]; intros Hne; [contradiction|].
  destruct l as [|x' l]; [reflexivity|].
  rewrite dedup_mask_cons, select_cons by discriminate.
  specialize (IH ltac:(discriminate)).
  destruct (forallb (Np.ltb x) (x' :: l)) eqn:E; [|exact IH].
  apply increasingb_cons_all; [|exact IH].
  intros z Hz. apply select_In in Hz.
  rewrite forallb_forall in E. now apply ltb_lt, E.
Qed.

Lemma dedup_select_nonempty (l : list Q) :
  l <> [] -> Np.select l (dedup_mask l) <> [].
Proof.
  induction l as [|x l IH]; intros Hne; [contradiction|].
  destruct l as [|x' l]; [discriminate|].
  rewrite dedup_mask_cons, select_cons by discriminate.
  destruct (forallb (Np.ltb x) (x' :: l)); [discriminate|].
  apply IH. discriminate.
Qed.

Section RemoveDuplicateIters.
Context {V : Type}.

Lemma remove_duplicate_iters_unfold (times : list Q) (vals : list V) :
  times <> [] -> length vals = length times ->
  remove_duplicate_iters times vals
  = Ok (Build_TimeSeries (Np.select times (dedup_mask times))
                         (Np.select vals (dedup_mask times))).
Proof.
  intros Hne Hlen. unfold remove_duplicate_iters.
  rewrite suffix_min_correct. fold (dedup_mask times).
  unfold Np.mask_index.
  rewrite Hlen, dedup_mask_length, Nat.eqb_refl by assumption. cbn [bind].
  apply TimeSeries_init_ok.
  - now apply dedup_select_nonempty.
  - now apply select_length.
  - now apply increasingb_spec, dedup_select_increasing.
Qed.

(** C2, amended.  For every pair of equal-length, non-empty arrays the
    function returns a series that holds exactly the samples at the
    positions the rule keeps: the last one, and each earlier position
    whose time is smaller than the minimum of the times after it.  The
    times of that series are strictly increasing.  For the times
    [1, 2, 3, 4, 2, 3] the result has the times [1, 2, 3] and the
    values at the positions 0, 4 and 5. *)
Theorem remove_duplicate_iters_spec (times : list Q) (vals : list V)
  (Hne : times <> []) (Hlen : length vals = length times) :
  remove_duplicate_iters times vals
  = Ok (Build_TimeSeries (samples_at times (kept_positions times))
                         (samples_at vals (kept_positions times))) /\
  strictly_increasing (samples_at times (kept_positions times)) /\
  (forall i, keeps times i = true <->
     (S i = length times \/
      ((S i < length times)%nat /\
       forall j, (i < j < length times)%nat ->
                 nth i times 0 < nth j times 0))) /\
  (forall v0 v1 v2 v3 v4 v5 : V,
     remove_duplicate_iters [1; 2; 3; 4; 2; 3] [v0; v1; v2; v3; v4; v5]
     = Ok (Build_TimeSeries [1; 2; 3] [v0; v4; v5])).
Proof.
  assert (Hmask : dedup_mask times
                  = map (keeps times) (seq 0 (length times)))
    by exact (dedup_mask_keeps [] times Hne).
  assert (Ht : Np.select times (dedup_mask times)
               = samples_at times (kept_positions times))
    by (rewrite Hmask; exact (select_positions (keeps times) [] times)).
  assert (Hv : Np.select vals (dedup_mask times)
               = samples_at vals (kept_positions times)).
  { unfold kept_positions. rewrite Hmask, <- Hlen.
    exact (select_positions (keeps times) [] vals). }
  split; [|split; [|split]].
  - rewrite remove_duplicate_iters_unfold, Ht, Hv by assumption. reflexivity.
  - rewrite <- Ht. now apply increasingb_spec, dedup_select_increasing.
  - intros i. apply keeps_spec.
  - intros. reflexivity.
Qed.

End RemoveDuplicateIters.

Lemma remove_duplicate_iters_spec_witness :
  remove_duplicate_iters [1; 2; 3; 4; 2; 3] [10; 20; 30; 40; 50; 60]%Z
  = Ok (Build_TimeSeries [1; 2; 3] [10; 50; 60]%Z).
Proof.
  exact (proj1 (remove_duplicate_iters_spec
                  [1; 2; 3; 4; 2; 3] [10; 20; 30; 40; 50; 60]%Z
                  ltac:(discriminate) eq_refl)).
Defined.

(** C2 as stated speaks of every pair of equal-length arrays.  The
    empty pair is one: there the mask is [[True]], one longer than the
    arrays, and indexing with it raises [IndexError], so no series is
    returned. *)
Lemma remove_duplicate_iters_empty :
  length (@nil Z) = length (@nil Q) /\
  remove_duplicate_iters (@nil Q) (@nil Z) = Raise IndexError /\
  ~ (exists s, remove_duplicate_iters (@nil Q) (@nil Z) = Ok s /\
               strictly_increasing (t s)).
Proof.
  split; [reflexivity|]. split; [reflexivity|].
  intros (s & H & _). discriminate H.
Qed.

(* ================================================================== *)
(** * Sorting *)
(* ================================================================== *)

Section SortFacts.
Context {K A : Type} (lt : K -> K -> bool).

Hypothesis lt_asym : forall a b, lt a b = true -> lt b a = false.
Hypothesis le_trans : forall a b c,
  lt b a = false -> lt c b = false -> lt c a = false.

Lemma insert_keyed_perm (x : K * A) (l : list (K * A)) :
  Permutation (Py.insert_keyed lt x l) (x :: l).
Proof.
  induction l as [|y l IH]; [reflexivity|]. cbn [Py.insert_keyed].
  destruct (lt (fst y) (fst x)); [|reflexivity].
  rewrite IH. apply perm_swap.
Qed.

Lemma sort_keyed_perm (l : list (K * A)) :
  Permutation (Py.sort_keyed lt l) l.
Proof.
  induction l as [|x l IH]; [reflexivity|].
  unfold Py.sort_keyed in *. cbn [fold_right].
  rewrite insert_keyed_perm. now constructor.
Qed.

Lemma insert_keyed_sorted (x : K * A) (l : list (K * A)) :
  StronglySorted (key_le lt) l -> StronglySorted (key_le lt) (Py.insert_keyed lt x l).
Proof.
  induction 1 as [|y l Hs IH Hall]; cbn [Py.insert_keyed].
  - repeat constructor.
  - destruct (lt (fst y) (fst x)) eqn:E.
    + constructor; [exact IH|].
      eapply Permutation_Forall;
        [symmetry; apply insert_keyed_perm|].
      constructor; [|exact Hall]. apply lt_asym, E.
    + constructor; [now constructor|].
      constructor; [exact E|].
      eapply Forall_impl; [|exact Hall].
      intros z Hz. unfold key_le in *. eapply le_trans; eassumption.
Qed.

Lemma sort_keyed_sorted (l : list (K * A)) :
  StronglySorted (key_le lt) (Py.sort_keyed lt l).
Proof.
  induction l as [|x l IH]; [constructor|].
  apply insert_keyed_sorted, IH.
Qed.

(** The sort is stable: an element goes in front of the ones that are
    not smaller. *)
Lemma insert_keyed_front (x : K * A) (l : list (K * A)) :
  Forall (fun z => lt (fst z) (fst x) = false) l ->
  Py.insert_keyed lt x l = x :: l.
Proof.
  intros H. destruct l as [|z l]; [reflexivity|].
  cbn [Py.insert_keyed]. inversion H as [|? ? Hz _]; subst. now rewrite Hz.
Qed.

End SortFacts.

(** ** The order on the keys of [combine_ts] *)

Lemma tuple_ltb_true (a b : Q * Q) :
  tuple_ltb a b = true <->
  fst a < fst b \/ (fst a == fst b /\ snd a < snd b).
Proof.
  unfold tuple_ltb. destruct (Qeq_bool (fst a) (fst b)) eqn:E.
  - apply Qeq_bool_iff in E. rewrite ltb_lt. split; [tauto|].
    intros [H|[_ H]]; [lra | exact H].
  - apply Qeq_bool_neq in E. rewrite ltb_lt. split; [tauto|].
    intros [H|[H _]]; [exact H | contradiction].
Qed.

Lemma tuple_ltb_false (a b : Q * Q) :
  tuple_ltb a b = false <->
  fst b < fst a \/ (fst a == fst b /\ snd b <= snd a).
Proof.
  unfold tuple_ltb. destruct (Qeq_bool (fst a) (fst b)) eqn:E.
  - apply Qeq_bool_iff in E. rewrite ltb_ge. split; [tauto|].
    intros [H|[_ H]]; [lra | exact H].
  - apply Qeq_bool_neq in E. rewrite ltb_ge. split.
    + intros H. left. apply Qle_lteq in H as [H|H]; [exact H|].
      exfalso. apply E. now symmetry.
    + intros [H|[H _]]; [lra | contradiction].
Qed.

Lemma tuple_ltb_asym (a b : Q * Q) :
  tuple_ltb a b = true -> tuple_ltb b a = false.
Proof.
  rewrite tuple_ltb_true, tuple_ltb_false.
  intros [H|[H1 H2]]; [left; exact H | right; split; [now symmetry | lra]].
Qed.

Lemma tuple_le_trans (a b c : Q * Q) :
  tuple_ltb b a = false -> tuple_ltb c b = false -> tuple_ltb c a = false.
Proof.
  rewrite !tuple_ltb_false. intros [H|[H1 H2]] [H'|[H1' H2']].
  - left. lra.
  - left. lra.
  - left. lra.
  - right. split; lra.
Qed.

(* ================================================================== *)
(** * Combining series *)
(* ================================================================== *)

(** ** Lists of pairs *)

Lemma combine_fst {A B : Type} (a : list A) (b : list B) :
  length a = length b -> map fst (combine a b) = a.
Proof.
  revert b. induction a as [|x a IH]; intros [|z b] H; try discriminate;
    [reflexivity|].
  cbn [combine map fst]. f_equal. apply IH. now injection H.
Qed.

Lemma combine_snd {A B : Type} (a : list A) (b : list B) :
  length a = length b -> map snd (combine a b) = b.
Proof.
  revert b. induction a as [|x a IH]; intros [|z b] H; try discriminate;
    [reflexivity|].
  cbn [combine map snd]. f_equal. apply IH. now injection H.
Qed.

Lemma combine_unzip {A B : Type} (l : list (A * B)) :
  combine (map fst l) (map snd l) = l.
Proof.
  induction l as [|[a b] l IH]; [reflexivity|].
  cbn [map combine fst snd]. now rewrite IH.
Qed.

Lemma combine_app {A B : Type} (a a' : list A) (b b' : list B) :
  length a = length b ->
  combine (a ++ a') (b ++ b') = combine a b ++ combine a' b'.
Proof.
  revert b. induction a as [|x a IH]; intros [|z b] H; try discriminate;
    [reflexivity|].
  cbn [app combine]. f_equal. apply IH. now injection H.
Qed.

Lemma combine_reverse {A B : Type} (a : list A) (b : list B) :
  length a = length b -> combine (rev a) (rev b) = rev (combine a b).
Proof.
  revert b. induction a as [|x a IH]; intros [|z b] H; try discriminate;
    [reflexivity|].
  injection H as H. cbn [rev combine].
  rewrite combine_app by (now rewrite !length_rev). now rewrite IH.
Qed.

Lemma combine_self {A B : Type} (f : A -> B) (l : list A) :
  combine (map f l) l = map (fun s => (f s, s)) l.
Proof.
  induction l as [|x l IH]; [reflexivity|]. cbn [map combine]. now rewrite IH.
Qed.

(** Selecting with a mask computed from the first array. *)
Lemma select_filter {A B : Type} (f : A -> bool) (a : list A) (b : list B) :
  length a = length b ->
  Np.select a (map f a)
    = map fst (filter (fun p => f (fst p)) (combine a b)) /\
  Np.select b (map f a)
    = map snd (filter (fun p => f (fst p)) (combine a b)).
Proof.
  revert b. induction a as [|x a IH]; intros [|z b] H; try discriminate;
    [split; reflexivity|].
  injection H as H. destruct (IH b H) as [IH1 IH2].
  cbn [map combine filter fst]. rewrite !select_cons.
  destruct (f x); cbn [map fst snd]; rewrite IH1, IH2; split; reflexivity.
Qed.

Lemma last_ok {A : Type} (l : list A) (d : A) :
  l <> [] -> Py.last l = Ok (List.last l d).
Proof.
  induction l as [|a [|b l] IH]; intros H; [contradiction|reflexivity|].
  change (Py.last (b :: l) = Ok (List.last (b :: l) d)).
  apply IH. discriminate.
Qed.

(** ** Sorted lists *)

Lemma StronglySorted_app {A : Type} (R : A -> A -> Prop) (a b : list A) :
  StronglySorted R a -> StronglySorted R b ->
  (forall x z, In x a -> In z b -> R x z) ->
  StronglySorted R (a ++ b).
Proof.
  intros Ha Hb Hab. induction Ha as [|x a Ha IH Hx]; [exact Hb|].
  cbn [app]. constructor.
  - apply IH. intros; apply Hab; [now right | assumption].
  - apply Forall_app. split; [exact Hx|].
    apply Forall_forall. intros z Hz. apply Hab; [now left | exact Hz].
Qed.

Lemma StronglySorted_app_inv {A : Type} (R : A -> A -> Prop) (a b : list A) :
  StronglySorted R (a ++ b) ->
  StronglySorted R a /\ StronglySorted R b /\
  (forall x z, In x a -> In z b -> R x z).
Proof.
  induction a as [|x a IH]; cbn [app].
  - intros H. repeat split; [constructor | exact H | intros ? ? []].
  - intros H. apply StronglySorted_inv in H as [Hs Hx].
    destruct (IH Hs) as (Ha & Hb & Hab). apply Forall_app in Hx as [Hxa Hxb].
    repeat split; [now constructor | exact Hb |].
    intros x' z [<-|Hx'] Hz; [|now apply Hab].
    rewrite Forall_forall in Hxb. now apply Hxb.
Qed.

Lemma StronglySorted_rev {A : Type} (R : A -> A -> Prop) (l : list A) :
  StronglySorted R l -> StronglySorted (fun a b => R b a) (rev l).
Proof.
  induction 1 as [|x l Hs IH Hx]; [constructor|].
  cbn [rev]. apply StronglySorted_app; [exact IH | repeat constructor |].
  intros a z Ha [<-|[]]. rewrite Forall_forall in Hx.
  apply Hx. now apply in_rev.
Qed.

Lemma StronglySorted_filter {A : Type} (R : A -> A -> Prop) (f : A -> bool)
  (l : list A) :
  StronglySorted R l -> StronglySorted R (filter f l).
Proof.
  induction 1 as [|x l Hs IH Hx]; [constructor|].
  cbn [filter]. destruct (f x); [|exact IH]. constructor; [exact IH|].
  rewrite Forall_forall in *. intros z Hz. apply Hx.
  now apply filter_In in Hz.
Qed.

Lemma StronglySorted_map {A B : Type} (R : A -> A -> Prop) (R' : B -> B -> Prop)
  (f : A -> B) (l : list A) :
  (forall a b, In a l -> In b l -> R a b -> R' (f a) (f b)) ->
  StronglySorted R l -> StronglySorted R' (map f l).
Proof.
  intros HR Hs. induction Hs as [|x l Hs IH Hx]; [constructor|].
  cbn [map]. constructor.
  - apply IH. intros a b Ha Hb. apply HR; now right.
  - rewrite Forall_forall in *. intros z Hz.
    apply in_map_iff in Hz as (a & <- & Ha).
    apply HR; [now left | now right | now apply Hx].
Qed.

Lemma increasing_sorted (l : list Q) :
  strictly_increasing l <-> StronglySorted Qlt l.
Proof.
  rewrite <- increasingb_spec. split.
  - induction l as [|a [|b l] IH]; intros H.
    + constructor.
    + repeat constructor.
    + rewrite increasingb_cons, andb_true_iff, ltb_lt in H.
      destruct H as [Hab Hl]. specialize (IH Hl).
      constructor; [exact IH|].
      apply StronglySorted_inv in IH as [_ Hb].
      constructor; [exact Hab|].
      eapply Forall_impl; [|exact Hb]. intros z Hz. lra.
  - induction 1 as [|a l Hs IH Ha]; [reflexivity|].
    destruct l as [|b l]; [reflexivity|].
    rewrite increasingb_cons, IH, andb_true_r. apply ltb_lt.
    now inversion Ha.
Qed.

(** ** Series that the constructor accepted *)

Section SeriesFacts.
Context {V : Type}.
Implicit Types (s : TimeSeries V) (series : list (TimeSeries V)).

Lemma valid_tmin s : valid s -> tmin s = Ok (start s).
Proof.
  intros H. apply valid_inv in H as (Hne & _). unfold tmin, start.
  destruct (t s); [contradiction | reflexivity].
Qed.

Lemma valid_tmax s : valid s -> tmax s = Ok (stop s).
Proof.
  intros H. apply valid_inv in H as (Hne & _). now apply last_ok.
Qed.

Lemma valid_sorted s : valid s -> StronglySorted Qlt (t s).
Proof. intros H. now apply increasing_sorted, valid_inv. Qed.

Lemma samples_fst s : valid s -> map fst (samples s) = t s.
Proof. intros H. apply combine_fst. symmetry. now apply valid_inv. Qed.

Lemma samples_snd s : valid s -> map snd (samples s) = y s.
Proof. intros H. apply combine_snd. symmetry. now apply valid_inv. Qed.

Lemma sample_time s (p : Q * V) : In p (samples s) -> In (fst p) (t s).
Proof. destruct p as [x v]. apply in_combine_l. Qed.

Lemma start_In s : valid s -> In (start s) (t s).
Proof.
  intros H. apply valid_inv in H as (Hne & _). unfold start.
  destruct (t s); [contradiction | now left].
Qed.

(** The first time is the smallest and the last one the largest. *)
Lemma start_le s x : valid s -> In x (t s) -> start s <= x.
Proof.
  intros H Hx. apply valid_sorted in H. unfold start.
  destruct (t s) as [|a l]; [destruct Hx|]. cbn [hd].
  apply StronglySorted_inv in H as [_ Ha]. destruct Hx as [<-|Hx]; [lra|].
  rewrite Forall_forall in Ha. apply Qlt_le_weak. now apply Ha.
Qed.

Lemma stop_ge s x : valid s -> In x (t s) -> x <= stop s.
Proof.
  intros H Hx. apply valid_sorted in H. unfold stop.
  destruct (t s) as [|a l] using rev_ind; [destruct Hx|].
  rewrite last_last. apply StronglySorted_app_inv in H as (_ & _ & H).
  apply in_app_iff in Hx as [Hx|[<-|[]]]; [|lra].
  apply Qlt_le_weak. apply H; [exact Hx | now left].
Qed.

Lemma sample_covered s (p : Q * V) :
  valid s -> In p (samples s) -> covers s (fst p).
Proof.
  intros H Hp. apply sample_time in Hp.
  split; [now apply start_le | now apply stop_ge].
Qed.

Lemma start_le_stop s : valid s -> start s <= stop s.
Proof. intros H. apply stop_ge; [exact H | now apply start_In]. Qed.

(** The samples of a series, latest first, end with the first one. *)
Lemma rev_samples_last s :
  valid s ->
  exists l v, rev (samples s) = l ++ [(start s, v)].
Proof.
  intros H. apply valid_inv in H as (Hne & Hlen & _).
  unfold samples, start. destruct (t s) as [|a l]; [contradiction|].
  destruct (y s) as [|v vs]; [discriminate|].
  cbn [combine rev hd]. eauto.
Qed.

(** ** The sort of [combine_ts] *)

Lemma combine_key_ok (prefer_late : bool) s :
  valid s ->
  combine_key (if prefer_late then - (1) else 1) s
  = Ok (key_of prefer_late s).
Proof.
  intros H. unfold combine_key, key_of.
  now rewrite valid_tmin, valid_tmax.
Qed.

Lemma mapM_ok {A B : Type} (f : A -> result B) (g : A -> B) (l : list A) :
  Forall (fun a => f a = Ok (g a)) l -> Py.mapM f l = Ok (map g l).
Proof.
  induction 1 as [|a l Ha _ IH]; [reflexivity|].
  cbn [Py.mapM map]. now rewrite Ha, IH.
Qed.

Lemma sorted_ok (prefer_late : bool) series :
  Forall valid series ->
  Py.sorted tuple_ltb
    (combine_key (if prefer_late then - (1) else 1)) series
  = Ok (ordered prefer_late series).
Proof.
  intros H. unfold Py.sorted.
  rewrite (mapM_ok _ (key_of prefer_late)).
  - cbn [bind]. now rewrite combine_self.
  - eapply Forall_impl; [|exact H]. intros s. apply combine_key_ok.
Qed.

Lemma ordered_perm (prefer_late : bool) series :
  Permutation (ordered prefer_late series) series.
Proof.
  unfold ordered.
  rewrite (sort_keyed_perm tuple_ltb), map_map. cbn [snd].
  now rewrite map_id.
Qed.

Lemma ordered_In (prefer_late : bool) series s :
  In s (ordered prefer_late series) <-> In s series.
Proof.
  split; apply Permutation_in;
    [apply ordered_perm | symmetry; apply ordered_perm].
Qed.

Lemma ordered_valid (prefer_late : bool) series :
  Forall valid series -> Forall valid (ordered prefer_late series).
Proof.
  intros H. eapply Permutation_Forall; [|exact H].
  symmetry. apply ordered_perm.
Qed.

Lemma ordered_nonempty (prefer_late : bool) series :
  series <> [] -> ordered prefer_late series <> [].
Proof.
  intros H E. apply H. apply Permutation_nil.
  rewrite <- E. apply ordered_perm.
Qed.

Lemma ordered_sorted (prefer_late : bool) series :
  StronglySorted (if prefer_late then late_order else early_order)
    (ordered prefer_late series).
Proof.
  unfold ordered.
  apply StronglySorted_map with (R := key_le tuple_ltb).
  2:{ apply sort_keyed_sorted; [apply tuple_ltb_asym|].
      intros a b c. apply tuple_le_trans. }
  assert (Hkey : forall p,
    In p (Py.sort_keyed tuple_ltb
            (map (fun s => (key_of prefer_late s, s)) series)) ->
    fst p = key_of prefer_late (snd p)).
  { intros p Hp.
    apply (Permutation_in _ (sort_keyed_perm tuple_ltb _)) in Hp.
    apply in_map_iff in Hp as (s & <- & _). reflexivity. }
  intros a b Ha Hb. unfold key_le.
  rewrite (Hkey a Ha), (Hkey b Hb), tuple_ltb_false.
  unfold key_of, late_order, early_order.
  destruct prefer_late; cbn [fst snd]; intros [H|[H1 H2]];
    [left | right; split | left | right; split]; lra.
Qed.

End SeriesFacts.

(** ** The loop of [combine_ts] when later data is preferred *)

Section CombineLate.
Context {V : Type}.
Implicit Types (s : TimeSeries V) (acc : list (Q * V))
  (rest : list (TimeSeries V)).

Lemma before_proper (m m' : Q) (l : list (Q * V)) :
  m == m' -> filter (before m) l = filter (before m') l.
Proof.
  intros E. apply filter_ext. intros p. unfold before.
  apply eq_true_iff_eq. rewrite !ltb_lt. now rewrite E.
Qed.

Lemma late_fill_proper (m m' : Q) rest :
  m == m' -> late_fill m rest = late_fill m' rest.
Proof.
  intros E. destruct rest as [|s rest]; [reflexivity|].
  cbn [late_fill]. now rewrite (before_proper m m').
Qed.

Lemma combine_step_late s acc :
  valid s -> acc <> [] ->
  combine_step true (Ok (map fst acc, map snd acc)) s
  = let acc' := acc ++ filter (before (time_last acc)) (rev (samples s)) in
    Ok (map fst acc', map snd acc').
Proof.
  intros Hs Hacc. pose proof (valid_inv s Hs) as (_ & Hlen & _).
  unfold combine_step. cbn [bind Np.step_slice].
  rewrite (last_ok (map fst acc) 0)
    by (intros E; apply map_eq_nil in E; contradiction).
  cbn [bind]. fold (time_last acc). unfold Np.mask_index.
  rewrite !length_map, !length_rev, Hlen, Nat.eqb_refl. cbn [bind].
  destruct (select_filter (fun x => Np.ltb x (time_last acc))
              (rev (t s)) (rev (y s))) as [E1 E2].
  { now rewrite !length_rev. }
  rewrite E1, E2, combine_reverse by (symmetry; exact Hlen).
  cbn zeta. now rewrite !map_app.
Qed.

Lemma time_last_app acc (l : list (Q * V)) (x : Q) (v : V) :
  time_last (acc ++ l ++ [(x, v)]) = x.
Proof.
  unfold time_last. rewrite app_assoc, map_app. cbn [map fst].
  apply last_last.
Qed.

(** After a series has been through the loop, the earliest time
    collected is its start. *)
Lemma time_last_step s acc :
  valid s -> start s <= time_last acc ->
  time_last (acc ++ filter (before (time_last acc)) (rev (samples s)))
  == start s.
Proof.
  intros Hs Hle. destruct (rev_samples_last s Hs) as (l & v & E).
  rewrite E, filter_app. cbn [filter]. unfold before at 2. cbn [fst].
  case_ltb (start s) (time_last acc).
  - rewrite time_last_app. reflexivity.
  - assert (Hnone : filter (before (time_last acc)) l = []).
    { rewrite (filter_ext_in _ (fun _ => false)); [apply filter_false|].
      intros p Hp. unfold before. apply ltb_ge.
      assert (Hin : In p (samples s)).
      { apply in_rev. rewrite E. apply in_or_app. now left. }
      pose proof (start_le s (fst p) Hs (sample_time s p Hin)). lra. }
    rewrite Hnone, !app_nil_r. lra.
Qed.

Lemma late_loop (rest : list (TimeSeries V)) acc :
  acc <> [] -> Forall valid rest ->
  StronglySorted late_order rest ->
  Forall (fun s => start s <= time_last acc) rest ->
  fold_left (combine_step true) rest (Ok (map fst acc, map snd acc))
  = let acc' := acc ++ late_fill (time_last acc) rest in
    Ok (map fst acc', map snd acc').
Proof.
  revert acc. induction rest as [|s rest IH]; intros acc Hacc Hval Hsort Hle.
  - cbn. now rewrite app_nil_r.
  - apply Forall_cons_iff in Hval as [Hs Hval].
    apply StronglySorted_inv in Hsort as [Hsort Hs_first].
    apply Forall_cons_iff in Hle as [Hs_le _].
    pose proof (time_last_step s acc Hs Hs_le) as Hlast.
    cbn [fold_left]. rewrite combine_step_late by assumption. cbn zeta.
    rewrite IH; try assumption.
    + cbn zeta. cbn [late_fill].
      rewrite (late_fill_proper _ (start s)) by exact Hlast.
      now rewrite <- app_assoc.
    + intros E. apply app_eq_nil in E as [E _]. contradiction.
    + eapply Forall_impl; [|exact Hs_first].
      intros s' Hs'. rewrite Hlast. unfold late_order in Hs'. lra.
Qed.

End CombineLate.

(** ** The merged samples *)

Section LateMerge.
Context {V : Type}.
Implicit Types (s : TimeSeries V) (p : Q * V).

Lemma samples_ascending s :
  valid s -> StronglySorted (fun a b => fst a < fst b) (samples s).
Proof.
  intros H. pose proof (valid_sorted s H) as Hs.
  rewrite <- (samples_fst s H) in Hs. clear H.
  induction (samples s) as [|p l IH]; [constructor|].
  cbn [map] in Hs. apply StronglySorted_inv in Hs as [Hs Hp].
  constructor; [now apply IH|].
  rewrite Forall_forall in *. intros z Hz. apply Hp. now apply in_map.
Qed.

Lemma rev_samples_descending s : valid s -> descending (rev (samples s)).
Proof.
  intros H. apply (StronglySorted_rev _ _ (samples_ascending s H)).
Qed.

Lemma late_fill_sorted (m : Q) (rest : list (TimeSeries V)) :
  Forall valid rest -> StronglySorted late_order rest ->
  Forall (fun s => start s <= m) rest ->
  descending (late_fill m rest) /\
  forall p, In p (late_fill m rest) -> fst p < m.
Proof.
  revert m. induction rest as [|s rest IH]; intros m Hval Hsort Hle.
  - split; [constructor | intros p []].
  - apply Forall_cons_iff in Hval as [Hs Hval].
    apply StronglySorted_inv in Hsort as [Hsort Hfirst].
    apply Forall_cons_iff in Hle as [Hs_le _].
    destruct (IH (start s) Hval Hsort) as [IHd IHlt].
    { eapply Forall_impl; [|exact Hfirst].
      intros s' Hs'. unfold late_order in Hs'. lra. }
    cbn [late_fill]. split.
    + apply StronglySorted_app; [| exact IHd |].
      * apply StronglySorted_filter, rev_samples_descending, Hs.
      * intros x z Hx Hz. apply filter_In in Hx as [Hx _].
        apply in_rev in Hx.
        pose proof (start_le s (fst x) Hs (sample_time s x Hx)).
        specialize (IHlt z Hz). lra.
    + intros p Hp. apply in_app_iff in Hp as [Hp|Hp].
      * apply filter_In in Hp as [_ Hp]. now apply ltb_lt.
      * specialize (IHlt p Hp). lra.
Qed.

(** A sample is appended for a series exactly when its time is before
    the start of all the series that came earlier in the order. *)
Lemma late_fill_In (m : Q) (rest : list (TimeSeries V)) p :
  StronglySorted late_order rest ->
  Forall (fun s => start s <= m) rest ->
  In p (late_fill m rest) <->
  exists pre s post,
    rest = pre ++ s :: post /\ In p (samples s) /\ fst p < m /\
    forall s', In s' pre -> fst p < start s'.
Proof.
  revert m. induction rest as [|s rest IH]; intros m Hsort Hle.
  - split; [intros [] | intros ([|? ?] & ? & ? & E & _); discriminate E].
  - apply StronglySorted_inv in Hsort as [Hsort Hfirst].
    apply Forall_cons_iff in Hle as [Hs_le _].
    assert (Hle' : Forall (fun s' => start s' <= start s) rest).
    { eapply Forall_impl; [|exact Hfirst].
      intros s' Hs'. unfold late_order in Hs'. lra. }
    cbn [late_fill]. rewrite in_app_iff, filter_In, <- in_rev.
    rewrite (IH (start s) Hsort Hle'). unfold before. rewrite ltb_lt. split.
    + intros [[Hin Hlt]|(pre & s' & post & -> & Hin & Hlt & Hpre)].
      * exists [], s, rest. repeat split; auto. intros ? [].
      * exists (s :: pre), s', post. repeat split; auto; [lra|].
        intros s'' [<-|Hs'']; auto.
    + intros ([|a pre] & s' & post & E & Hin & Hlt & Hpre).
      * injection E as <- <-. now left.
      * injection E as <- ->. right. exists pre, s', post.
        repeat split; auto.
        -- apply Hpre. now left.
        -- intros s'' Hs''. apply Hpre. now right.
Qed.

Lemma late_merge_In (ss : list (TimeSeries V)) p :
  Forall valid ss -> StronglySorted late_order ss ->
  In p (late_merge ss) <->
  exists pre s post,
    ss = pre ++ s :: post /\ In p (samples s) /\
    forall s', In s' pre -> fst p < start s'.
Proof.
  intros Hval Hsort. destruct ss as [|s0 rest].
  - split; [intros [] | intros ([|? ?] & ? & ? & E & _); discriminate E].
  - apply Forall_cons_iff in Hval as [Hs0 Hval].
    apply StronglySorted_inv in Hsort as [Hsort Hfirst].
    assert (Hle : Forall (fun s' => start s' <= start s0) rest).
    { eapply Forall_impl; [|exact Hfirst].
      intros s' Hs'. unfold late_order in Hs'. lra. }
    unfold late_merge. rewrite <- in_rev, in_app_iff, <- in_rev.
    rewrite (late_fill_In _ _ _ Hsort Hle). split.
    + intros [Hin|(pre & s & post & -> & Hin & Hlt & Hpre)].
      * exists [], s0, rest. repeat split; auto. intros ? [].
      * exists (s0 :: pre), s, post. repeat split; auto.
        intros s' [<-|Hs']; auto.
    + intros ([|a pre] & s & post & E & Hin & Hpre).
      * injection E as <- <-. now left.
      * injection E as <- ->. right. exists pre, s, post.
        repeat split; auto.
        -- apply Hpre. now left.
        -- intros s' Hs'. apply Hpre. now right.
Qed.

Lemma late_merge_sorted (ss : list (TimeSeries V)) :
  Forall valid ss -> StronglySorted late_order ss ->
  StronglySorted (fun a b => fst a < fst b) (late_merge ss).
Proof.
  intros Hval Hsort. destruct ss as [|s0 rest]; [constructor|].
  apply Forall_cons_iff in Hval as [Hs0 Hval].
  apply StronglySorted_inv in Hsort as [Hsort Hfirst].
  assert (Hle : Forall (fun s' => start s' <= start s0) rest).
  { eapply Forall_impl; [|exact Hfirst].
    intros s' Hs'. unfold late_order in Hs'. lra. }
  destruct (late_fill_sorted (start s0) rest Hval Hsort Hle) as [Hd Hlt].
  unfold late_merge.
  apply (StronglySorted_rev (fun a b => fst b < fst a)).
  apply StronglySorted_app;
    [now apply rev_samples_descending | exact Hd |].
  intros x z Hx Hz. apply in_rev in Hx.
  pose proof (start_le s0 (fst x) Hs0 (sample_time s0 x Hx)).
  specialize (Hlt z Hz). lra.
Qed.

Lemma late_merge_nonempty (ss : list (TimeSeries V)) :
  Forall valid ss -> ss <> [] -> late_merge ss <> [].
Proof.
  intros Hval Hne. destruct ss as [|s0 rest]; [contradiction|].
  apply Forall_cons_iff in Hval as [Hs0 _].
  destruct (rev_samples_last s0 Hs0) as (l & v & E).
  unfold late_merge. rewrite E. intros H.
  apply (f_equal (@length _)) in H.
  rewrite length_rev, !length_app in H. simpl in H. lia.
Qed.

(** [combine_ts] with [prefer_late] returns, and it returns the merged
    samples. *)
Lemma combine_ts_late (series : list (TimeSeries V)) :
  series <> [] -> Forall valid series ->
  let merged := late_merge (ordered true series) in
  combine_ts series true
  = Ok (Build_TimeSeries (map fst merged) (map snd merged)).
Proof.
  intros Hne Hval merged.
  pose proof (ordered_valid true series Hval) as Hval'.
  pose proof (ordered_sorted true series) as Hsort. cbn in Hsort.
  pose proof (ordered_nonempty true series Hne) as Hne'.
  pose proof (late_merge_sorted _ Hval' Hsort) as Hmerged.
  pose proof (late_merge_nonempty _ Hval' Hne') as Hmne.
  fold merged in Hmerged, Hmne.
  unfold combine_ts. rewrite (sorted_ok true series Hval). cbn [bind].
  subst merged.
  destruct (ordered true series) as [|s0 rest]; [contradiction|].
  cbn [Py.first bind tl Np.step_slice].
  apply Forall_cons_iff in Hval' as [Hs0 Hrest].
  apply StronglySorted_inv in Hsort as [Hsort Hfirst].
  destruct (rev_samples_last s0 Hs0) as (l & v & E).
  assert (Hlast : time_last (rev (samples s0)) = start s0).
  { rewrite E. apply (time_last_app []). }
  rewrite <- (samples_fst s0 Hs0) at 1. rewrite <- (samples_snd s0 Hs0).
  rewrite <- !map_rev, late_loop; try assumption.
  - cbn zeta. cbn [bind]. rewrite Hlast, <- !map_rev.
    apply TimeSeries_init_ok.
    + intros H. apply map_eq_nil in H. contradiction.
    + now rewrite !length_map.
    + apply increasing_sorted.
      eapply StronglySorted_map; [|exact Hmerged]. auto.
  - rewrite E. intros H. apply app_eq_nil in H as [_ H]. discriminate.
  - rewrite Hlast. eapply Forall_impl; [|exact Hfirst].
    intros s' Hs'. unfold late_order in Hs'. lra.
Qed.

End LateMerge.

(** ** What [combine_ts] keeps when later data is preferred *)

Section CombinePreferLate.
Context {V : Type}.
Implicit Types (s : TimeSeries V) (p : Q * V).

(** In a list sorted as [combine_ts] sorts it, a series whose sample at
    [x] is before the start of every other series that starts no
    earlier has only later-starting series in front of its first
    occurrence. *)
Lemma first_occurrence (ss : list (TimeSeries V)) s (x : Q) :
  StronglySorted late_order ss -> In s ss -> start s <= x ->
  (forall s', In s' ss -> s' = s \/ start s' < start s \/ x < start s') ->
  exists pre post,
    ss = pre ++ s :: post /\ forall s', In s' pre -> x < start s'.
Proof.
  intros Hsort Hin Hx. induction Hsort as [|a l Hsort IH Ha]; [destruct Hin|].
  intros Hothers. destruct (Qlt_le_dec x (start a)) as [Hlt|Hge].
  - destruct Hin as [->|Hin]; [lra|].
    destruct (IH Hin) as (pre & post & -> & Hpre).
    { intros s' Hs'. apply Hothers. now right. }
    exists (a :: pre), post. split; [reflexivity|].
    intros s' [<-|Hs']; auto.
  - destruct (Hothers a (or_introl eq_refl)) as [->|[Hlt|Hlt]]; [| |lra].
    + exists [], l. split; [reflexivity | intros ? []].
    + destruct Hin as [->|Hin]; [lra|].
      rewrite Forall_forall in Ha. specialize (Ha s Hin).
      unfold late_order in Ha. lra.
Qed.

(** C3, amended.  For every non-empty list of series, [combine_ts] with
    [prefer_late] returns a series.  A sample is in the result exactly
    when it is a sample of an input and its time is before the start of
    every input that precedes that input in the sort by decreasing
    start.  So a sample of the result comes from the latest-starting
    input that covers its time, and a sample of an input is kept when
    every other input starts either before that input or after the
    sample.  The series [1, 2, 3] and [2, 3, 4] combine to
    [1, 2, 3, 4], the values at 2 and 3 being those of the second. *)
Theorem combine_ts_prefer_late (series : list (TimeSeries V))
  (Hne : series <> []) (Hval : Forall valid series) :
  (exists r,
     combine_ts series true = Ok r /\
     strictly_increasing (t r) /\
     (forall p, In p (samples r) <->
        exists pre s post,
          ordered true series = pre ++ s :: post /\ In p (samples s) /\
          forall s', In s' pre -> fst p < start s') /\
     (forall p, In p (samples r) ->
        exists s, In s series /\ In p (samples s) /\
          forall s', In s' series -> covers s' (fst p) ->
                     start s' <= start s) /\
     (forall s p, In s series -> In p (samples s) ->
        (forall s', In s' series ->
           s' = s \/ start s' < start s \/ fst p < start s') ->
        In p (samples r))) /\
  (forall a1 a2 a3 b2 b3 b4 : V,
     combine_ts [Build_TimeSeries [1; 2; 3] [a1; a2; a3];
                 Build_TimeSeries [2; 3; 4] [b2; b3; b4]] true
     = Ok (Build_TimeSeries [1; 2; 3; 4] [a1; b2; b3; b4])).
Proof.
  split; [|intros; reflexivity].
  pose proof (ordered_valid true series Hval) as Hval'.
  pose proof (ordered_sorted true series) as Hsort. cbn in Hsort.
  set (merged := late_merge (ordered true series)).
  exists (Build_TimeSeries (map fst merged) (map snd merged)).
  assert (Hsamples :
    samples (Build_TimeSeries (map fst merged) (map snd merged)) = merged)
    by apply combine_unzip.
  assert (Hin : forall p, In p merged <->
        exists pre s post,
          ordered true series = pre ++ s :: post /\ In p (samples s) /\
          forall s', In s' pre -> fst p < start s')
    by (intros p; now apply late_merge_In).
  split; [now apply combine_ts_late|]. rewrite Hsamples.
  split; [|split; [exact Hin|split]].
  - apply increasing_sorted. cbn [t data_x].
    eapply StronglySorted_map;
      [|exact (late_merge_sorted _ Hval' Hsort)]. auto.
  - intros p Hp. apply Hin in Hp as (pre & s & post & E & Hs & Hpre).
    exists s. split; [|split; [exact Hs|]].
    + apply (ordered_In true). rewrite E. apply in_elt.
    + intros s' Hs' [Hcov _]. apply (ordered_In true) in Hs'.
      rewrite E in Hs', Hsort.
      apply in_app_iff in Hs' as [Hs'|[<-|Hs']].
      * specialize (Hpre s' Hs'). lra.
      * lra.
      * apply StronglySorted_app_inv in Hsort as (_ & Hsort & _).
        apply StronglySorted_inv in Hsort as [_ Hsort].
        rewrite Forall_forall in Hsort. specialize (Hsort s' Hs').
        unfold late_order in Hsort. lra.
  - intros s p Hs Hp Hothers. apply Hin.
    assert (Hs_valid : valid s)
      by (rewrite Forall_forall in Hval; now apply Hval).
    destruct (first_occurrence (ordered true series) s (fst p) Hsort)
      as (pre & post & E & Hpre).
    + now apply ordered_In.
    + apply start_le; [exact Hs_valid | now apply sample_time].
    + intros s' Hs'. apply Hothers. now apply (ordered_In true).
    + exists pre, s, post. auto.
Qed.

End CombinePreferLate.

Lemma combine_ts_prefer_late_witness :
  combine_ts [Build_TimeSeries [1; 2; 3] [11; 12; 13]%Z;
              Build_TimeSeries [2; 3; 4] [22; 23; 24]%Z] true
  = Ok (Build_TimeSeries [1; 2; 3; 4] [11; 22; 23; 24]%Z).
Proof.
  refine (proj2 (combine_ts_prefer_late
            [Build_TimeSeries [1; 2; 3] [11; 12; 13]%Z;
             Build_TimeSeries [2; 3; 4] [22; 23; 24]%Z] _ _)
          11%Z 12%Z 13%Z 22%Z 23%Z 24%Z).
  - discriminate.
  - repeat constructor.
Defined.

(** C3 as stated promises that every stretch of an input that no other
    input covers is preserved.  Take the series over [1, 2, 3, 4] and
    the series over [2, 3]: the second starts later, the loop keeps
    from the first only the times before 2, and the sample at 4, which
    the second series does not cover, is lost. *)
Lemma combine_ts_drops_uncovered :
  valid outer_series /\ valid inner_series /\
  combine_ts [outer_series; inner_series] true
    = Ok (Build_TimeSeries [1; 2; 3] [11; 22; 23]%Z) /\
  ~ preserves_uncovered [outer_series; inner_series]
      (Build_TimeSeries [1; 2; 3] [11; 22; 23]%Z).
Proof.
  split; [reflexivity|]. split; [reflexivity|].
  split; [reflexivity|]. intros H.
  assert (Hin : In (4, 14%Z)
                  (samples (Build_TimeSeries [1; 2; 3] [11; 22; 23]%Z))).
  { apply (H outer_series); [now left | cbn; auto 6 |].
    intros s' [<-|[<-|[]]] Hs'; [now contradiction Hs'|].
    intros [_ Hcov]. vm_compute in Hcov. now apply Hcov. }
  cbn in Hin. destruct Hin as [Hin|[Hin|[Hin|[]]]]; discriminate Hin.
Qed.

(** ** Series that start together *)

Section CombineTie.
Context {V : Type}.
Implicit Types (a b : TimeSeries V).

Lemma key_of_late_lt a b :
  start a == start b -> stop a < stop b ->
  tuple_ltb (key_of true b) (key_of true a) = true /\
  tuple_ltb (key_of true a) (key_of true b) = false.
Proof.
  intros Hstart Hstop. rewrite tuple_ltb_true, tuple_ltb_false.
  unfold key_of. cbn [fst snd]. split; right; split; lra.
Qed.

Lemma ordered_late_tie a b :
  start a == start b -> stop a < stop b ->
  ordered true [a; b] = [b; a] /\ ordered true [b; a] = [b; a].
Proof.
  intros Hstart Hstop.
  destruct (key_of_late_lt a b Hstart Hstop) as [Hba Hab].
  unfold ordered, Py.sort_keyed.
  cbn [map fold_right Py.insert_keyed fst snd].
  now rewrite Hba, Hab.
Qed.

Lemma valid_rebuild a :
  valid a ->
  Build_TimeSeries (map fst (samples a)) (map snd (samples a)) = a.
Proof.
  intros H. rewrite samples_fst, samples_snd by exact H. now destruct a.
Qed.

Lemma late_merge_tie a b :
  valid a -> valid b -> start a == start b ->
  late_merge [b; a] = samples b.
Proof.
  intros Ha Hb Hstart. unfold late_merge. cbn [late_fill].
  rewrite (filter_ext_in _ (fun _ => false)).
  - rewrite filter_false, !app_nil_r. apply rev_involutive.
  - intros p Hp. apply in_rev in Hp. unfold before. apply ltb_ge.
    pose proof (start_le a (fst p) Ha (sample_time a p Hp)). lra.
Qed.

(** X23.  With [prefer_late], of two series that start together the
    longer one is the whole result, whichever comes first in the
    input. *)
Lemma combine_ts_late_tie a b :
  valid a -> valid b -> start a == start b -> stop a < stop b ->
  combine_ts [a; b] true = Ok b /\ combine_ts [b; a] true = Ok b.
Proof.
  intros Ha Hb Hstart Hstop.
  destruct (ordered_late_tie a b Hstart Hstop) as [E1 E2].
  split; rewrite combine_ts_late by (try discriminate; now repeat constructor);
    cbn zeta; rewrite ?E1, ?E2, late_merge_tie by assumption;
    now rewrite valid_rebuild.
Qed.

(** C8.  Without [prefer_late] the sort key is [(tmin, tmax)]: of two
    series that start together the shorter one comes first and is
    taken whole, and the longer one gives only what lies after the end
    of the shorter.  For the series over [1, 2] and over [1, 2, 3] the
    values at 1 and 2 are those of the shorter series, whichever comes
    first in the input; with [prefer_late] they are those of the
    longer one. *)
Theorem combine_ts_early_tie (a1 a2 b1 b2 b3 : V) :
  let short := Build_TimeSeries [1; 2] [a1; a2] in
  let long := Build_TimeSeries [1; 2; 3] [b1; b2; b3] in
  combine_ts [short; long] false
    = Ok (Build_TimeSeries [1; 2; 3] [a1; a2; b3]) /\
  combine_ts [long; short] false
    = Ok (Build_TimeSeries [1; 2; 3] [a1; a2; b3]) /\
  combine_ts [short; long] true = Ok long /\
  combine_ts [long; short] true = Ok long.
Proof. repeat split. Qed.

End CombineTie.

Lemma combine_ts_late_tie_example :
  combine_ts [Build_TimeSeries [1; 2] [11; 12]%Z;
              Build_TimeSeries [1; 2; 3] [21; 22; 23]%Z] true
  = Ok (Build_TimeSeries [1; 2; 3] [21; 22; 23]%Z).
Proof.
  apply (combine_ts_late_tie (Build_TimeSeries [1; 2] [11; 12]%Z)
           (Build_TimeSeries [1; 2; 3] [21; 22; 23]%Z));
    reflexivity.
Defined.

(* ================================================================== *)
(** * Unfolding a phase *)
(* ================================================================== *)




Lemma pi_pos : 0 < Np.pi.
Proof. reflexivity. Qed.

Lemma two_pi_pos : 0 < two_pi.
Proof. reflexivity. Qed.

(** ** The loop behind the array operations *)

Lemma unfold_phase_loop (w prev : Q) (rest : list Q) :
  Np.zip_with (fun p w => p + two_pi * w) rest
    (Np.cumsum_from w
       (map (fun d => inject_Z (Np.rint d))
          (Np.zip_with Qminus
             (removelast (map (fun p => p / two_pi) (prev :: rest)))
             (map (fun p => p / two_pi) rest))))
  = unfold_from w prev rest.
Proof.
  revert w prev. induction rest as [|cur rest IH]; intros w prev;
    [reflexivity|].
  cbn [map]. cbn [map] in IH.
  change (removelast (?a :: ?b :: ?l)) with (a :: removelast (b :: l)).
  cbn [Np.zip_with map Np.cumsum_from unfold_from]. f_equal. apply IH.
Qed.

Lemma unfold_phase_cons (p : Q) (rest : list Q) :
  unfold_phase (p :: rest) = (p + two_pi * 0) :: unfold_from 0 p rest.
Proof.
  unfold unfold_phase. fold two_pi.
  cbn [map tl Np.cumsum Np.zip_with]. f_equal.
  apply (unfold_phase_loop 0 p rest).
Qed.


(** ** A wrapped ramp *)




(* ================================================================== *)
(** * Resampling at a fixed frequency *)
(* ================================================================== *)

Lemma nth_map_seq {A : Type} (f : nat -> A) (m i : nat) (d : A) :
  (i < m)%nat -> nth i (map f (seq 0 m)) d = f i.
Proof.
  intros Hi. rewrite (nth_indep _ d (f 0%nat)) by now rewrite length_map, length_seq.
  rewrite (map_nth f (seq 0 m) 0%nat i), seq_nth by exact Hi. reflexivity.
Qed.

(** A grid [a + k * step] with a positive step is increasing. *)
Lemma grid_increasing (a step : Q) (m : nat) :
  0 < step ->
  strictly_increasing
    (map (fun k => a + inject_Z (Z.of_nat k) * step) (seq 0 m)).
Proof.
  intros Hstep i Hi. rewrite length_map, length_seq in Hi.
  rewrite !nth_map_seq by lia.
  rewrite Nat2Z.inj_succ. unfold Z.succ. rewrite inject_Z_plus.
  change (inject_Z 1) with 1.
  setoid_replace (a + (inject_Z (Z.of_nat i) + 1) * step)
    with (a + inject_Z (Z.of_nat i) * step + step) by ring.
  lra.
Qed.


Section FixedFrequency.
Context {V : Type}.
Variable interpolate : list Q -> list V -> Q -> V.
Implicit Types (s : TimeSeries V).

Lemma valid_time_length s :
  valid s -> time_length s = Ok (stop s - start s).
Proof.
  intros H. unfold time_length. now rewrite valid_tmax, valid_tmin.
Qed.

Lemma resampled_ok s (new_times : list Q) :
  new_times <> [] -> strictly_increasing new_times ->
  resampled interpolate s new_times
  = Ok (Build_TimeSeries new_times
          (map (interpolate (t s) (y s)) new_times)).
Proof.
  intros Hne Hinc. unfold resampled.
  apply TimeSeries_init_ok; [exact Hne | apply length_map | exact Hinc].
Qed.


End FixedFrequency.


(* ================================================================== *)
(** * The time step *)
(* ================================================================== *)

Section TimeStep.
Context {V : Type}.
Implicit Types (s : TimeSeries V).

(** C10.  On a series of a single point the array of consecutive
    differences is empty and [dt] raises [IndexError], not the
    [ValueError] of an irregular sampling.  On a series of two points
    or more [dt] is the first difference when all the differences are
    close to it, and raises [ValueError] otherwise. *)
Theorem dt_single_point s :
  (length (t s) = 1%nat -> dt s = Raise IndexError) /\
  ((2 <= length (t s))%nat ->
     let dt0 := nth 1 (t s) 0 - nth 0 (t s) 0 in
     dt s = if Np.allclose (Np.diff (t s)) dt0 then Ok dt0
            else Raise ValueError).
Proof.
  split.
  - intros H. unfold dt.
    destruct (t s) as [|a [|b l]]; try discriminate. reflexivity.
  - intros H dt0. subst dt0. unfold dt.
    destruct (t s) as [|a [|b l]]; cbn [length] in H; try lia.
    rewrite diff_cons. cbn [Py.getitem nth_error bind nth].
    now destruct (Np.allclose _ _).
Qed.

End TimeStep.

Lemma dt_single_point_witness :
  dt (Build_TimeSeries [5] [7%Z]) = Raise IndexError /\
  dt (Build_TimeSeries [1; 2; 3] [7; 8; 9]%Z) = Ok 1 /\
  dt (Build_TimeSeries [1; 2; 4] [7; 8; 9]%Z) = Raise ValueError.
Proof.
  split; [|split].
  - apply (proj1 (dt_single_point (Build_TimeSeries [5] [7%Z]))).
    reflexivity.
  - apply (proj2 (dt_single_point (Build_TimeSeries [1; 2; 3] [7; 8; 9]%Z))).
    simpl. lia.
  - apply (proj2 (dt_single_point (Build_TimeSeries [1; 2; 4] [7; 8; 9]%Z))).
    simpl. lia.
Defined.

(* ================================================================== *)
(** * The Fourier transform *)
(* ================================================================== *)

Section Fourier.
Context {V C : Type}.
Variable interpolate : list Q -> list V -> Q -> V.
Variable fft : list V -> list C.

(** C6.  The docstring of [to_FrequencySeries] says that only positive
    frequencies are kept when the signal is not complex.  The code
    never looks at the values: it returns the whole shifted spectrum.
    For the series over [0, 1, 2, 3], whatever its values, the
    frequencies returned are -1/2, -1/4, 0 and 1/4. *)
Theorem to_FrequencySeries_full_spectrum (y0 y1 y2 y3 : V) :
  exists fs,
    to_FrequencySeries interpolate fft
      (Build_TimeSeries [0; 1; 2; 3] [y0; y1; y2; y3]) = Ok fs /\
    Forall2 Qeq (fs_f fs) [- (1 # 2); - (1 # 4); 0; 1 # 4] /\
    Exists (fun f => f < 0) (fs_f fs).
Proof.
  eexists. split; [vm_compute; reflexivity|]. cbn [fs_f]. split.
  - repeat constructor.
  - constructor. reflexivity.
Qed.

End Fourier.

(* ================================================================== *)
(** * Smoothing over a time *)
(* ================================================================== *)

(** The window handed to the filter is odd. *)
Lemma savgol_window_odd (tsmooth dt : Q) :
  Z.odd (savgol_window tsmooth dt) = true.
Proof.
  unfold savgol_window. generalize (Np.rint (tsmooth / dt)) as w. intros w.
  rewrite Zmod_odd. destruct (Z.odd w) eqn:Hodd; cbn [Z.eqb].
  - exact Hodd.
  - now rewrite Z.add_1_r, Z.odd_succ, <- Z.negb_odd, Hodd.
Qed.

Section Savgol.
Context {V : Type}.
Variable interpolate : list Q -> list V -> Q -> V.
Variable savgol_filter : list V -> Z -> Z -> list V.

(** C9.  The docstring of [savgol_smoothed_time] promises a resampled
    series with uniform time steps, smoothed.  The code resamples only
    to measure the step: the filter is applied to the series itself.
    For the series over [0, 1, 3], smoothing time 3 and order 1, the
    window is 3, and the result is the constructor applied to the
    original times [0, 1, 3] and the filtered original values, while
    the regular resampling has the times 0, 3/2 and 3. *)
Theorem savgol_smoothed_time_not_resampled (y0 y1 y2 : V) :
  let s := Build_TimeSeries [0; 1; 3] [y0; y1; y2] in
  savgol_smoothed_time interpolate savgol_filter s 3 1
    = TimeSeries_init [0; 1; 3] (savgol_filter [y0; y1; y2] 3 1) /\
  savgol_smoothed_time interpolate savgol_filter s 3 1
    = savgol_smoothed savgol_filter s 3 1 /\
  exists ts,
    regular_resampled interpolate s = Ok ts /\
    Forall2 Qeq (t ts) [0; 3 # 2; 3] /\
    ~ Forall2 Qeq (t ts) [0; 1; 3] /\
    savgol_smoothed savgol_filter ts 3 1
      = TimeSeries_init (t ts) (savgol_filter (y ts) 3 1).
Proof.
  intros s. split; [reflexivity|]. split; [reflexivity|].
  eexists. split; [vm_compute; reflexivity|]. cbn [t data_x]. split.
  - repeat constructor.
  - split; [|reflexivity]. intros H.
    apply Forall2_cons_iff in H as [_ H].
    apply Forall2_cons_iff in H as [H _]. discriminate H.
Qed.

End Savgol.

(** With a filter that returns its input the two can be compared
    outright: the code returns the original series. *)
Lemma savgol_smoothed_time_identity (y0 y1 y2 : Z) :
  savgol_smoothed_time (fun _ _ x => Qfloor x) (fun v _ _ => v)
    (Build_TimeSeries [0; 1; 3] [y0; y1; y2]) 3 1
  = Ok (Build_TimeSeries [0; 1; 3] [y0; y1; y2]).
Proof. reflexivity. Qed.

(* ================================================================== *)
(** * Sampling on a common grid *)
(* ================================================================== *)

(** ** The best element of a sequence *)

Section ExtremumFacts.
Context {K A : Type} (better : K -> K -> bool) (R : K -> K -> Prop).

(** [R a b]: [b] is at least as good as [a]. *)
Hypothesis R_trans : forall a b c, R a b -> R b c -> R a c.
Hypothesis R_refl : forall a, R a a.
Hypothesis better_true : forall new cur, better new cur = true -> R cur new.
Hypothesis better_false : forall new cur, better new cur = false -> R new cur.




End ExtremumFacts.




(** ** The grid *)

Lemma linspace_length (a b : Q) (n : nat) :
  length (Np.linspace a b n) = n.
Proof.
  destruct n as [|[|m]]; try reflexivity.
  unfold Np.linspace. rewrite length_app, length_map, length_seq.
  simpl. lia.
Qed.

Lemma linspace_increasing (a b : Q) (n : nat) :
  a < b -> strictly_increasing (Np.linspace a b n).
Proof.
  intros Hab. destruct n as [|[|m]].
  - intros i Hi. simpl in Hi. lia.
  - intros i Hi. simpl in Hi. lia.
  - unfold Np.linspace.
    set (step := (b - a) / inject_Z (Z.of_nat (S m))).
    assert (Hm : 0 < inject_Z (Z.of_nat (S m))).
    { change 0 with (inject_Z 0). rewrite <- Zlt_Qlt. lia. }
    assert (Hstep : 0 < step).
    { unfold step. apply Qlt_shift_div_l; [exact Hm | lra]. }
    assert (Hb : b == a + inject_Z (Z.of_nat (S m)) * step).
    { unfold step. field. lra. }
    apply increasing_sorted, StronglySorted_app.
    + apply increasing_sorted, grid_increasing, Hstep.
    + repeat constructor.
    + intros x z Hx [<-|[]].
      apply in_map_iff in Hx as (k & <- & Hk). apply in_seq in Hk.
      rewrite Hb. apply Qplus_lt_r, Qmult_lt_compat_r; [exact Hstep|].
      rewrite <- Zlt_Qlt. lia.
Qed.


(** ** The function *)

Section SampleCommon.
Context {V : Type}.
Variable interpolate : list Q -> list V -> Q -> V.
Implicit Types (s : TimeSeries V) (series : list (TimeSeries V)).

Lemma valid_len s : valid s -> (1 <= len s)%nat.
Proof.
  intros H. apply valid_inv in H as (Hne & _). unfold len.
  destruct (t s); [contradiction | simpl; lia].
Qed.





End SampleCommon.

(** Reading the bounds off a concrete list. *)
Lemma is_max_tmin_eq {V : Type} (series : list (TimeSeries V)) (a a' : Q) :
  is_max_tmin series a -> is_max_tmin series a' -> a == a'.
Proof.
  intros [(s & Hs & <-) Ha] [(s' & Hs' & <-) Ha'].
  specialize (Ha s' Hs'). specialize (Ha' s Hs). lra.
Qed.



(* ================================================================== *)
(** * Further properties: removing duplicate iterations *)
(* ================================================================== *)

Lemma select_all {A : Type} (a : list A) :
  Np.select a (map (fun _ => true) a) = a.
Proof.
  induction a as [|x a IH]; [reflexivity|].
  cbn [map]. rewrite select_cons. now rewrite IH.
Qed.

Lemma select_all_other {A B : Type} (a : list A) (b : list B) :
  length b = length a -> Np.select b (map (fun _ => true) a) = b.
Proof.
  revert b. induction a as [|x a IH]; intros [|z b] H; try discriminate;
    [reflexivity|].
  cbn [map]. rewrite select_cons. f_equal. apply IH. now injection H.
Qed.

Lemma combine_select {A B : Type} (a : list A) (b : list B)
  (msk : list bool) :
  length a = length b ->
  combine (Np.select a msk) (Np.select b msk)
  = Np.select (combine a b) msk.
Proof.
  revert b msk. induction a as [|x a IH]; intros [|z b] msk H;
    try discriminate; [reflexivity|].
  injection H as H. destruct msk as [|[|] msk]; [reflexivity| |].
  - cbn [combine]. rewrite !select_cons. cbn [combine]. f_equal. now apply IH.
  - cbn [combine]. rewrite !select_cons. now apply IH.
Qed.

(** On increasing times the mask keeps everything. *)
Lemma dedup_mask_increasing (l : list Q) :
  l <> [] -> StronglySorted Qlt l ->
  dedup_mask l = map (fun _ => true) l.
Proof.
  induction l as [|x l IH]; intros Hne Hs; [contradiction|].
  destruct l as [|x' l]; [reflexivity|].
  apply StronglySorted_inv in Hs as [Hs Hx].
  rewrite dedup_mask_cons by discriminate. cbn [map]. f_equal.
  - apply forallb_forall. intros z Hz. apply ltb_lt.
    rewrite Forall_forall in Hx. now apply Hx.
  - apply IH; [discriminate | exact Hs].
Qed.

(** The last sample is the last one selected. *)
Lemma dedup_select_last {A : Type} (l : list Q) (a : list A) (d : A) :
  l <> [] -> length a = length l ->
  List.last (Np.select a (dedup_mask l)) d = List.last a d.
Proof.
  revert a. induction l as [|x l IH]; intros a Hne Hlen; [contradiction|].
  destruct a as [|z a]; [discriminate|]. injection Hlen as Hlen.
  destruct l as [|x' l].
  - destruct a; [reflexivity | discriminate].
  - destruct a as [|z' a]; [discriminate|].
    rewrite dedup_mask_cons, select_cons by discriminate.
    assert (Hsel : Np.select (z' :: a) (dedup_mask (x' :: l)) <> []).
    { intros E. apply (f_equal (@length _)) in E.
      rewrite (select_length (z' :: a) (x' :: l)) in E by exact Hlen.
      apply (dedup_select_nonempty (x' :: l)); [discriminate|].
      now apply length_zero_iff_nil. }
    specialize (IH (z' :: a) ltac:(discriminate) Hlen).
    destruct (forallb (Np.ltb x) (x' :: l)).
    + destruct (Np.select (z' :: a) (dedup_mask (x' :: l))) as [|w sel]
        eqn:E; [contradiction|].
      change (List.last (z :: w :: sel) d) with (List.last (w :: sel) d).
      exact IH.
    + exact IH.
Qed.

Section DedupMore.
Context {V : Type}.

(** X1.  Times that are already strictly increasing are returned
    unchanged, with their values. *)
Theorem remove_duplicate_iters_increasing (times : list Q) (vals : list V)
  (Hne : times <> []) (Hlen : length vals = length times)
  (Hinc : strictly_increasing times) :
  remove_duplicate_iters times vals = Ok (Build_TimeSeries times vals).
Proof.
  rewrite remove_duplicate_iters_unfold by assumption.
  rewrite dedup_mask_increasing by (try assumption; now apply increasing_sorted).
  now rewrite select_all, select_all_other.
Qed.

(** X2.  Cleaning is idempotent: the times and values of a returned
    series are returned unchanged by a second call. *)
Theorem remove_duplicate_iters_idempotent (times : list Q) (vals : list V)
  (r : TimeSeries V) :
  remove_duplicate_iters times vals = Ok r ->
  remove_duplicate_iters (t r) (y r) = Ok r.
Proof.
  unfold remove_duplicate_iters.
  destruct (Np.mask_index times _) as [t'|]; [|discriminate].
  destruct (Np.mask_index vals _) as [y'|]; [|discriminate].
  cbn [bind]. intros H. apply TimeSeries_init_inv in H
    as (-> & Hne & Hlen & Hinc).
  now apply remove_duplicate_iters_increasing.
Qed.

(** X3.  When the values and the non-empty times differ in length, the
    mask does not fit the values and the call raises [IndexError]. *)
Theorem remove_duplicate_iters_mismatch (times : list Q) (vals : list V)
  (Hne : times <> []) (Hlen : length vals <> length times) :
  remove_duplicate_iters times vals = Raise IndexError.
Proof.
  unfold remove_duplicate_iters.
  rewrite suffix_min_correct. fold (dedup_mask times).
  unfold Np.mask_index.
  rewrite dedup_mask_length, Nat.eqb_refl by assumption. cbn [bind].
  apply Nat.eqb_neq in Hlen. now rewrite Hlen.
Qed.

(** X4.  The series returned ends at the last input time with the last
    input value, and each of its samples is a sample of the input. *)
Theorem remove_duplicate_iters_last (times : list Q) (vals : list V)
  (r : TimeSeries V) (d : V) :
  remove_duplicate_iters times vals = Ok r ->
  tmax r = Ok (List.last times 0) /\
  List.last (y r) d = List.last vals d /\
  forall p, In p (samples r) -> In p (combine times vals).
Proof.
  intros H.
  assert (Hne : times <> []).
  { intros ->. unfold remove_duplicate_iters in H. cbn in H. discriminate. }
  destruct (Nat.eq_dec (length vals) (length times)) as [Hlen|Hlen].
  2:{ rewrite remove_duplicate_iters_mismatch in H by assumption.
      discriminate. }
  rewrite remove_duplicate_iters_unfold in H by assumption.
  injection H as <-. unfold tmax, samples. cbn [t y data_x data_y].
  split; [|split].
  - rewrite (last_ok _ 0) by now apply dedup_select_nonempty.
    f_equal. now apply dedup_select_last.
  - now apply dedup_select_last.
  - intros p Hp. rewrite combine_select in Hp by (symmetry; exact Hlen).
    eapply select_In, Hp.
Qed.

End DedupMore.

Lemma remove_duplicate_iters_increasing_witness :
  remove_duplicate_iters [1; 2; 5] [7; 8; 9]%Z
  = Ok (Build_TimeSeries [1; 2; 5] [7; 8; 9]%Z).
Proof.
  apply remove_duplicate_iters_increasing;
    [discriminate | reflexivity |].
  intros [|[|i]] Hi; simpl in Hi |- *; try lia; reflexivity.
Defined.

Lemma remove_duplicate_iters_idempotent_witness :
  remove_duplicate_iters [1; 2; 3] [10; 50; 60]%Z
  = Ok (Build_TimeSeries [1; 2; 3] [10; 50; 60]%Z).
Proof.
  exact (remove_duplicate_iters_idempotent
           [1; 2; 3; 4; 2; 3] [10; 20; 30; 40; 50; 60]%Z
           (Build_TimeSeries [1; 2; 3] [10; 50; 60]%Z) eq_refl).
Defined.

Lemma remove_duplicate_iters_mismatch_witness :
  remove_duplicate_iters [1; 2; 3] [10; 20]%Z = Raise IndexError.
Proof.
  apply remove_duplicate_iters_mismatch; [discriminate|].
  simpl. lia.
Defined.

Lemma remove_duplicate_iters_last_witness :
  tmax (Build_TimeSeries [1; 2; 3] [10; 50; 60]%Z) = Ok 3 /\
  List.last [10; 50; 60]%Z 0%Z = 60%Z.
Proof.
  destruct (remove_duplicate_iters_last
              [1; 2; 3; 4; 2; 3] [10; 20; 30; 40; 50; 60]%Z
              (Build_TimeSeries [1; 2; 3] [10; 50; 60]%Z) 0%Z eq_refl)
    as (H1 & H2 & _).
  split; [exact H1 | exact H2].
Defined.

(* ================================================================== *)
(** * Further properties: combining series *)
(* ================================================================== *)

Section CombineEarly.
Context {V : Type}.
Implicit Types (s : TimeSeries V) (acc : list (Q * V)) (p : Q * V)
  (rest : list (TimeSeries V)).

Lemma samples_last s :
  valid s -> exists l v, samples s = l ++ [(stop s, v)].
Proof.
  intros H. pose proof (samples_fst s H) as Hfst.
  apply valid_inv in H as (Hne & Hlen & _).
  destruct (samples s) as [|p l] eqn:E using rev_ind.
  - cbn in Hfst. now rewrite <- Hfst in Hne.
  - clear IHl. destruct p as [x v]. exists l, v. do 2 f_equal.
    unfold stop. rewrite <- Hfst, map_app. cbn [map fst].
    now rewrite last_last.
Qed.

Lemma combine_step_early s acc :
  valid s -> acc <> [] ->
  combine_step false (Ok (map fst acc, map snd acc)) s
  = let acc' := acc ++ filter (after (time_last acc)) (samples s) in
    Ok (map fst acc', map snd acc').
Proof.
  intros Hs Hacc. pose proof (valid_inv s Hs) as (_ & Hlen & _).
  unfold combine_step. cbn [bind Np.step_slice].
  rewrite (last_ok (map fst acc) 0)
    by (intros E; apply map_eq_nil in E; contradiction).
  cbn [bind]. fold (time_last acc). unfold Np.mask_index.
  rewrite !length_map, Hlen, Nat.eqb_refl. cbn [bind].
  destruct (select_filter (fun x => Np.gtb x (time_last acc))
              (t s) (y s)) as [E1 E2]; [now symmetry|].
  rewrite E1, E2. cbn zeta. now rewrite !map_app.
Qed.

Lemma time_last_early s acc :
  valid s ->
  time_last (acc ++ filter (after (time_last acc)) (samples s))
  = later_end (time_last acc) (stop s).
Proof.
  intros Hs. destruct (samples_last s Hs) as (l & v & E).
  rewrite E, filter_app. cbn [filter]. unfold after at 2, Np.gtb, later_end.
  cbn [fst]. case_ltb (time_last acc) (stop s).
  - apply time_last_app.
  - rewrite (filter_ext_in _ (fun _ => false)).
    + now rewrite filter_false, !app_nil_r.
    + intros p Hp. unfold after. apply ltb_ge.
      assert (Hin : In p (samples s)) by (rewrite E; apply in_or_app; now left).
      pose proof (stop_ge s (fst p) Hs (sample_time s p Hin)). lra.
Qed.

Lemma early_loop rest acc :
  acc <> [] -> Forall valid rest ->
  fold_left (combine_step false) rest (Ok (map fst acc, map snd acc))
  = let acc' := acc ++ early_fill (time_last acc) rest in
    Ok (map fst acc', map snd acc').
Proof.
  revert acc. induction rest as [|s rest IH]; intros acc Hacc Hval.
  - cbn. now rewrite app_nil_r.
  - apply Forall_cons_iff in Hval as [Hs Hval].
    cbn [fold_left]. rewrite combine_step_early by assumption. cbn zeta.
    rewrite IH; try assumption.
    + cbn zeta. cbn [early_fill]. rewrite time_last_early by exact Hs.
      now rewrite <- app_assoc.
    + intros E. apply app_eq_nil in E as [E _]. contradiction.
Qed.

Lemma later_end_lt (m b x : Q) :
  later_end m b < x <-> m < x /\ b < x.
Proof.
  unfold later_end. case_ltb m b; split; intros H; try split; lra.
Qed.

Lemma early_fill_In (m : Q) rest p :
  In p (early_fill m rest) <->
  exists pre s post,
    rest = pre ++ s :: post /\ In p (samples s) /\ m < fst p /\
    forall s', In s' pre -> stop s' < fst p.
Proof.
  revert m. induction rest as [|s rest IH]; intros m.
  - split; [intros [] | intros ([|? ?] & ? & ? & E & _); discriminate E].
  - cbn [early_fill]. rewrite in_app_iff, filter_In, IH.
    unfold after, Np.gtb. rewrite ltb_lt. split.
    + intros [[Hin Hlt]|(pre & s' & post & -> & Hin & Hlt & Hpre)].
      * exists [], s, rest. repeat split; auto. intros ? [].
      * apply later_end_lt in Hlt as [Hm Hb].
        exists (s :: pre), s', post. repeat split; auto.
        intros s'' [<-|Hs'']; auto.
    + intros ([|a pre] & s' & post & E & Hin & Hlt & Hpre).
      * injection E as <- <-. now left.
      * injection E as <- ->. right. exists pre, s', post.
        repeat split; auto.
        -- apply later_end_lt. split; [exact Hlt|]. apply Hpre. now left.
        -- intros s'' Hs''. apply Hpre. now right.
Qed.

Lemma early_fill_sorted (m : Q) rest :
  Forall valid rest ->
  StronglySorted (fun a b => fst a < fst b) (early_fill m rest) /\
  forall p, In p (early_fill m rest) -> m < fst p.
Proof.
  revert m. induction rest as [|s rest IH]; intros m Hval.
  - split; [constructor | intros p []].
  - apply Forall_cons_iff in Hval as [Hs Hval].
    destruct (IH (later_end m (stop s)) Hval) as [IHs IHlt].
    cbn [early_fill]. split.
    + apply StronglySorted_app; [| exact IHs |].
      * apply StronglySorted_filter, samples_ascending, Hs.
      * intros x z Hx Hz. apply filter_In in Hx as [Hx _].
        pose proof (stop_ge s (fst x) Hs (sample_time s x Hx)).
        apply IHlt, later_end_lt in Hz. lra.
    + intros p Hp. apply in_app_iff in Hp as [Hp|Hp].
      * apply filter_In in Hp as [_ Hp]. now apply ltb_lt.
      * apply IHlt, later_end_lt in Hp. tauto.
Qed.

Lemma early_merge_In (ss : list (TimeSeries V)) p :
  In p (early_merge ss) <->
  exists pre s post,
    ss = pre ++ s :: post /\ In p (samples s) /\
    forall s', In s' pre -> stop s' < fst p.
Proof.
  destruct ss as [|s0 rest].
  - split; [intros [] | intros ([|? ?] & ? & ? & E & _); discriminate E].
  - unfold early_merge. rewrite in_app_iff, early_fill_In. split.
    + intros [Hin|(pre & s & post & -> & Hin & Hlt & Hpre)].
      * exists [], s0, rest. repeat split; auto. intros ? [].
      * exists (s0 :: pre), s, post. repeat split; auto.
        intros s' [<-|Hs']; auto.
    + intros ([|a pre] & s & post & E & Hin & Hpre).
      * injection E as <- <-. now left.
      * injection E as <- ->. right. exists pre, s, post.
        repeat split; auto.
        -- apply Hpre. now left.
        -- intros s' Hs'. apply Hpre. now right.
Qed.

Lemma early_merge_sorted (ss : list (TimeSeries V)) :
  Forall valid ss ->
  StronglySorted (fun a b => fst a < fst b) (early_merge ss).
Proof.
  intros Hval. destruct ss as [|s0 rest]; [constructor|].
  apply Forall_cons_iff in Hval as [Hs0 Hval].
  destruct (early_fill_sorted (stop s0) rest Hval) as [Hs Hlt].
  unfold early_merge.
  apply StronglySorted_app; [now apply samples_ascending | exact Hs |].
  intros x z Hx Hz.
  pose proof (stop_ge s0 (fst x) Hs0 (sample_time s0 x Hx)).
  specialize (Hlt z Hz). lra.
Qed.

Lemma combine_ts_early (series : list (TimeSeries V)) :
  series <> [] -> Forall valid series ->
  let merged := early_merge (ordered false series) in
  combine_ts series false
  = Ok (Build_TimeSeries (map fst merged) (map snd merged)).
Proof.
  intros Hne Hval merged.
  pose proof (ordered_valid false series Hval) as Hval'.
  pose proof (ordered_nonempty false series Hne) as Hne'.
  pose proof (early_merge_sorted _ Hval') as Hmerged. fold merged in Hmerged.
  unfold combine_ts. rewrite (sorted_ok false series Hval). cbn [bind].
  subst merged.
  destruct (ordered false series) as [|s0 rest]; [contradiction|].
  cbn [Py.first bind tl Np.step_slice].
  apply Forall_cons_iff in Hval' as [Hs0 Hrest].
  destruct (samples_last s0 Hs0) as (l & v & E).
  assert (Hlast : time_last (samples s0) = stop s0).
  { rewrite E. apply (time_last_app []). }
  rewrite <- (samples_fst s0 Hs0) at 1. rewrite <- (samples_snd s0 Hs0).
  rewrite early_loop; try assumption.
  - cbn zeta. cbn [bind]. rewrite Hlast.
    apply TimeSeries_init_ok.
    + intros H. apply map_eq_nil in H. unfold early_merge in H.
      rewrite E in H. apply app_eq_nil in H as [H _].
      apply app_eq_nil in H as [_ H]. discriminate.
    + now rewrite !length_map.
    + apply increasing_sorted.
      eapply StronglySorted_map; [|exact Hmerged]. auto.
  - rewrite E. intros H. apply app_eq_nil in H as [_ H]. discriminate.
Qed.

(** In the sorted list, a series whose sample at [x] no other series
    covers has only series that end before [x] in front of it. *)
Lemma first_occurrence_early (ss : list (TimeSeries V)) s (x : Q) :
  StronglySorted early_order ss -> In s ss -> covers s x ->
  (forall s', In s' ss -> s' = s \/ ~ covers s' x) ->
  exists pre post,
    ss = pre ++ s :: post /\ forall s', In s' pre -> stop s' < x.
Proof.
  intros Hsort Hin [Hlo Hhi].
  induction Hsort as [|a l Hsort IH Ha]; [destruct Hin|].
  intros Hothers. destruct (Qlt_le_dec (stop a) x) as [Hlt|Hge].
  - destruct Hin as [->|Hin]; [lra|].
    destruct (IH Hin) as (pre & post & -> & Hpre).
    { intros s' Hs'. apply Hothers. now right. }
    exists (a :: pre), post. split; [reflexivity|].
    intros s' [<-|Hs']; auto.
  - destruct (Hothers a (or_introl eq_refl)) as [->|Hnot].
    + exists [], l. split; [reflexivity | intros ? []].
    + exfalso. destruct Hin as [->|Hin]; [apply Hnot; now split|].
      rewrite Forall_forall in Ha. specialize (Ha s Hin).
      apply Hnot. split; [|exact Hge]. unfold early_order in Ha. lra.
Qed.

(** X6.  Without [prefer_late], [combine_ts] on a non-empty list of
    series returns a strictly increasing series.  A sample is in the
    result exactly when it is a sample of an input and its time is
    after the end of every input that precedes that input in the sort
    by increasing start.  So a sample of the result comes from the
    earliest-starting input that covers its time, and a sample of an
    input that no other input covers is kept. *)
Theorem combine_ts_prefer_early (series : list (TimeSeries V))
  (Hne : series <> []) (Hval : Forall valid series) :
  exists r,
    combine_ts series false = Ok r /\
    strictly_increasing (t r) /\
    (forall p, In p (samples r) <->
       exists pre s post,
         ordered false series = pre ++ s :: post /\ In p (samples s) /\
         forall s', In s' pre -> stop s' < fst p) /\
    (forall p, In p (samples r) ->
       exists s, In s series /\ In p (samples s) /\
         forall s', In s' series -> covers s' (fst p) ->
                    start s <= start s') /\
    (forall s p, In s series -> In p (samples s) ->
       (forall s', In s' series -> s' = s \/ ~ covers s' (fst p)) ->
       In p (samples r)).
Proof.
  pose proof (ordered_valid false series Hval) as Hval'.
  pose proof (ordered_sorted false series) as Hsort. cbn in Hsort.
  set (merged := early_merge (ordered false series)).
  exists (Build_TimeSeries (map fst merged) (map snd merged)).
  assert (Hsamples :
    samples (Build_TimeSeries (map fst merged) (map snd merged)) = merged)
    by apply combine_unzip.
  assert (Hin : forall p, In p merged <->
        exists pre s post,
          ordered false series = pre ++ s :: post /\ In p (samples s) /\
          forall s', In s' pre -> stop s' < fst p)
    by (intros p; apply early_merge_In).
  split; [now apply combine_ts_early|]. rewrite Hsamples.
  split; [|split; [exact Hin|split]].
  - apply increasing_sorted. cbn [t data_x].
    eapply StronglySorted_map; [|exact (early_merge_sorted _ Hval')]. auto.
  - intros p Hp. apply Hin in Hp as (pre & s & post & E & Hs & Hpre).
    exists s. split; [|split; [exact Hs|]].
    + apply (ordered_In false). rewrite E. apply in_elt.
    + intros s' Hs' [_ Hcov]. apply (ordered_In false) in Hs'.
      rewrite E in Hs', Hsort.
      apply in_app_iff in Hs' as [Hs'|[<-|Hs']].
      * specialize (Hpre s' Hs'). lra.
      * lra.
      * apply StronglySorted_app_inv in Hsort as (_ & Hsort & _).
        apply StronglySorted_inv in Hsort as [_ Hsort].
        rewrite Forall_forall in Hsort. specialize (Hsort s' Hs').
        unfold early_order in Hsort. lra.
  - intros s p Hs Hp Hothers. apply Hin.
    assert (Hs_valid : valid s)
      by (rewrite Forall_forall in Hval; now apply Hval).
    destruct (first_occurrence_early (ordered false series) s (fst p) Hsort)
      as (pre & post & E & Hpre).
    + now apply ordered_In.
    + now apply sample_covered.
    + intros s' Hs'. apply Hothers. now apply (ordered_In false).
    + exists pre, s, post. auto.
Qed.

(** X5.  An empty list has no first series and [combine_ts] raises
    [IndexError]; a list of one series gives that series back, whatever
    the preference. *)
Theorem combine_ts_small (prefer_late : bool) :
  combine_ts (@nil (TimeSeries V)) prefer_late = Raise IndexError /\
  forall s, valid s -> combine_ts [s] prefer_late = Ok s.
Proof.
  split; [now destruct prefer_late|]. intros s Hs.
  destruct prefer_late.
  - rewrite combine_ts_late by (try discriminate; now repeat constructor).
    cbn zeta. unfold ordered. cbn [map Py.sort_keyed fold_right
      Py.insert_keyed snd late_merge late_fill].
    rewrite app_nil_r, rev_involutive. now rewrite valid_rebuild.
  - rewrite combine_ts_early by (try discriminate; now repeat constructor).
    cbn zeta. unfold ordered. cbn [map Py.sort_keyed fold_right
      Py.insert_keyed snd early_merge early_fill].
    rewrite app_nil_r. now rewrite valid_rebuild.
Qed.

End CombineEarly.

Lemma combine_ts_prefer_early_witness :
  exists r,
    combine_ts [outer_series; inner_series] false = Ok r /\
    strictly_increasing (t r).
Proof.
  destruct (combine_ts_prefer_early [outer_series; inner_series])
    as (r & Hr & Hinc & _).
  - discriminate.
  - repeat constructor.
  - exists r. split; assumption.
Defined.

Lemma combine_ts_small_witness :
  combine_ts [inner_series] true = Ok inner_series.
Proof.
  apply (proj2 (combine_ts_small true)). reflexivity.
Defined.

(* ================================================================== *)
(** * Further properties: unfolding a phase *)
(* ================================================================== *)

(** Rounding moves a number by at most a half. *)
Lemma rint_close (x : Q) : Qabs (x - inject_Z (Np.rint x)) <= 1 # 2.
Proof.
  pose proof (Qfloor_le x) as Hfl. pose proof (Qlt_floor x) as Hfu.
  rewrite inject_Z_plus in Hfu. change (inject_Z 1) with 1 in Hfu.
  apply Qabs_Qle_condition. unfold Np.rint.
  case_ltb (x - inject_Z (Qfloor x)) (1 # 2); [split; lra|].
  case_ltb (1 # 2) (x - inject_Z (Qfloor x)).
  - rewrite inject_Z_plus. change (inject_Z 1) with 1. split; lra.
  - destruct (Z.even (Qfloor x)); [split; lra|].
    rewrite inject_Z_plus. change (inject_Z 1) with 1. split; lra.
Qed.

(** A number within a half of zero rounds to zero: the halves go to
    the even neighbour. *)
Lemma rint_small (x : Q) : Qabs x <= 1 # 2 -> Np.rint x = 0%Z.
Proof.
  intros H. apply Qabs_Qle_condition in H as [Hlo Hhi].
  pose proof (Qfloor_le x) as Hfl. pose proof (Qlt_floor x) as Hfu.
  rewrite inject_Z_plus in Hfu. change (inject_Z 1) with 1 in Hfu.
  assert (Hle : (Qfloor x <= 0)%Z).
  { apply Z.lt_succ_r. rewrite Zlt_Qlt. change (inject_Z (Z.succ 0)) with 1.
    lra. }
  assert (Hge : (-1 <= Qfloor x)%Z).
  { apply Z.lt_succ_r. rewrite Zlt_Qlt. unfold Z.succ.
    rewrite inject_Z_plus. change (inject_Z 1) with 1.
    change (inject_Z (-1)) with (- (1)). lra. }
  unfold Np.rint. destruct (Z.eq_dec (Qfloor x) 0) as [E|E].
  - rewrite E in *. change (inject_Z 0) with 0 in *.
    case_ltb (x - 0) (1 # 2); [reflexivity|].
    case_ltb (1 # 2) (x - 0); [lra | reflexivity].
  - assert (E' : Qfloor x = (-1)%Z) by lia. rewrite E' in *.
    change (inject_Z (-1)) with (- (1)) in *.
    case_ltb (x - - (1)) (1 # 2); [lra|].
    case_ltb (1 # 2) (x - - (1)); reflexivity.
Qed.

Lemma unfold_from_close (w prev : Q) (rest : list Q) :
  close_steps (prev + two_pi * w) (unfold_from w prev rest).
Proof.
  revert w prev. induction rest as [|cur rest IH]; intros w prev;
    [exact I|].
  cbn [unfold_from close_steps]. split; [|apply IH].
  pose proof (rint_close (prev / two_pi - cur / two_pi)) as H.
  set (k := inject_Z (Np.rint (prev / two_pi - cur / two_pi))) in *.
  apply Qabs_Qle_condition in H as [Hlo Hhi].
  pose proof two_pi_pos as Hpos.
  assert (Hpi : two_pi == 2 * Np.pi) by reflexivity.
  assert (Hx : prev / two_pi - cur / two_pi == (prev - cur) / two_pi)
    by (field; lra).
  rewrite Hx in Hlo, Hhi.
  assert (H1 : (prev - cur) / two_pi * two_pi == prev - cur)
    by (field; lra).
  assert (Hlo' : (- (1 # 2) + k) * two_pi <= (prev - cur) / two_pi * two_pi)
    by (apply Qmult_le_compat_r; lra).
  assert (Hhi' : (prev - cur) / two_pi * two_pi <= ((1 # 2) + k) * two_pi)
    by (apply Qmult_le_compat_r; lra).
  rewrite H1 in Hlo', Hhi'.
  apply Qabs_Qle_condition.
  setoid_replace (cur + two_pi * (w + k) - (prev + two_pi * w))
    with (k * two_pi - (prev - cur)) by ring.
  setoid_replace ((- (1 # 2) + k) * two_pi)
    with (k * two_pi - Np.pi) in Hlo' by (rewrite Hpi; ring).
  setoid_replace (((1 # 2) + k) * two_pi)
    with (k * two_pi + Np.pi) in Hhi' by (rewrite Hpi; ring).
  split; lra.
Qed.

Lemma unfold_from_offsets (k : Z) (w prev : Q) (rest : list Q) :
  w == inject_Z k ->
  Forall2 (fun o p => exists n : Z, o == p + two_pi * inject_Z n)
    (unfold_from w prev rest) rest.
Proof.
  revert k w prev. induction rest as [|cur rest IH]; intros k w prev Hw;
    [constructor|].
  cbn [unfold_from].
  set (j := Np.rint (prev / two_pi - cur / two_pi)).
  assert (Hw' : w + inject_Z j == inject_Z (k + j))
    by (rewrite inject_Z_plus, Hw; reflexivity).
  constructor; [|now apply (IH (k + j)%Z)].
  exists (k + j)%Z. now rewrite Hw'.
Qed.

Lemma unfold_from_fixed (w prev : Q) (l : list Q) :
  w == 0 -> close_steps prev l -> Forall2 Qeq (unfold_from w prev l) l.
Proof.
  revert w prev. induction l as [|cur l IH]; intros w prev Hw Hclose;
    [constructor|].
  destruct Hclose as [Hstep Hclose]. cbn [unfold_from].
  pose proof two_pi_pos as Hpos.
  assert (Hpi : two_pi == 2 * Np.pi) by reflexivity.
  assert (Hr : Np.rint (prev / two_pi - cur / two_pi) = 0%Z).
  { apply rint_small.
    setoid_replace (prev / two_pi - cur / two_pi)
      with ((prev - cur) / two_pi) by (field; lra).
    apply Qabs_Qle_condition in Hstep as [Hlo Hhi].
    apply Qabs_Qle_condition. split.
    - apply Qle_shift_div_l; [exact Hpos | lra].
    - apply Qle_shift_div_r; [exact Hpos | lra]. }
  rewrite Hr. change (inject_Z 0) with 0.
  assert (Hw' : w + 0 == 0) by lra.
  constructor; [rewrite Hw'; lra|]. now apply IH.
Qed.

Lemma close_steps_proper (a b : Q) (l : list Q) :
  a == b -> close_steps a l -> close_steps b l.
Proof.
  intros E. destruct l as [|x l]; [trivial|].
  cbn [close_steps]. now rewrite E.
Qed.

Lemma close_steps_nth (prev : Q) (l : list Q) :
  close_steps prev l ->
  forall i, (S i < length (prev :: l))%nat ->
    Qabs (nth (S i) (prev :: l) 0 - nth i (prev :: l) 0) <= Np.pi.
Proof.
  revert prev. induction l as [|x l IH]; intros prev H i Hi.
  - simpl in Hi. lia.
  - destruct H as [Hx Hl]. destruct i as [|i]; [exact Hx|].
    rewrite (nth_cons_S (S i)), (nth_cons_S i). apply IH; [exact Hl|].
    simpl in Hi |- *. lia.
Qed.

(** X7.  The output has the length of the input, and each output
    sample is the input sample plus a whole number of turns. *)
Theorem unfold_phase_offsets (phase : list Q) :
  Forall2 (fun o p => exists n : Z, o == p + two_pi * inject_Z n)
    (unfold_phase phase) phase.
Proof.
  destruct phase as [|p rest]; [constructor|].
  rewrite unfold_phase_cons. constructor.
  - exists 0%Z. reflexivity.
  - now apply (unfold_from_offsets 0).
Qed.

(** X8.  Whatever the input, two consecutive output samples are at
    most [pi] apart: no jump of half a turn or more is left. *)
Theorem unfold_phase_continuous (phase : list Q) (i : nat) :
  (S i < length (unfold_phase phase))%nat ->
  Qabs (nth (S i) (unfold_phase phase) 0 - nth i (unfold_phase phase) 0)
  <= Np.pi.
Proof.
  destruct phase as [|p rest]; [simpl; lia|].
  rewrite unfold_phase_cons. apply close_steps_nth, unfold_from_close.
Qed.

(** X9.  Unfolding an unfolded phase changes nothing. *)
Theorem unfold_phase_idempotent (phase : list Q) :
  Forall2 Qeq (unfold_phase (unfold_phase phase)) (unfold_phase phase).
Proof.
  destruct phase as [|p rest]; [constructor|].
  rewrite unfold_phase_cons.
  set (o := p + two_pi * 0). set (l := unfold_from 0 p rest).
  rewrite unfold_phase_cons. constructor; [lra|].
  apply unfold_from_fixed; [reflexivity|]. apply unfold_from_close.
Qed.

Lemma unfold_phase_continuous_witness :
  Qabs (nth 3 (unfold_phase [0; 3; -3; 0]) 0
        - nth 2 (unfold_phase [0; 3; -3; 0]) 0) <= Np.pi.
Proof.
  apply (unfold_phase_continuous [0; 3; -3; 0] 2). simpl. lia.
Defined.

(* ================================================================== *)
(** * Further properties: regular sampling *)
(* ================================================================== *)

(** ** Consecutive differences *)








(** ** The regular grid *)

Lemma linspace_nth (a b : Q) (m i : nat) :
  (i < S m)%nat ->
  nth i (Np.linspace a b (S (S m))) 0
  = a + inject_Z (Z.of_nat i) * ((b - a) / inject_Z (Z.of_nat (S m))).
Proof.
  intros Hi. unfold Np.linspace.
  rewrite app_nth1 by (rewrite length_map, length_seq; lia).
  exact (nth_map_seq
           (fun k => a + inject_Z (Z.of_nat k)
                         * ((b - a) / inject_Z (Z.of_nat (S m))))
           (S m) i 0 Hi).
Qed.

Lemma linspace_nth_last (a b : Q) (m : nat) :
  nth (S m) (Np.linspace a b (S (S m))) 0 = b.
Proof.
  unfold Np.linspace.
  rewrite app_nth2 by (rewrite length_map, length_seq; lia).
  rewrite length_map, length_seq, Nat.sub_diag. reflexivity.
Qed.

Lemma linspace_spacing (a b : Q) (n i : nat) :
  (S i < n)%nat ->
  nth (S i) (Np.linspace a b n) 0 - nth i (Np.linspace a b n) 0
  == (b - a) / inject_Z (Z.of_nat (n - 1)).
Proof.
  intros Hi. destruct n as [|[|m]]; try lia.
  replace (S (S m) - 1)%nat with (S m) by lia.
  assert (Hm : ~ inject_Z (Z.of_nat (S m)) == 0).
  { change 0 with (inject_Z 0). rewrite inject_Z_injective. lia. }
  rewrite (linspace_nth a b m i) by lia.
  destruct (Nat.eq_dec (S i) (S m)) as [E|E].
  - rewrite E, linspace_nth_last. injection E as ->. 
    rewrite Nat2Z.inj_succ. unfold Z.succ. rewrite inject_Z_plus.
    change (inject_Z 1) with 1.
    rewrite Nat2Z.inj_succ in Hm. unfold Z.succ in Hm.
    rewrite inject_Z_plus in Hm. change (inject_Z 1) with 1 in Hm.
    field. exact Hm.
  - rewrite (linspace_nth a b m (S i)) by lia.
    rewrite (Nat2Z.inj_succ i). unfold Z.succ. rewrite inject_Z_plus.
    change (inject_Z 1) with 1. field. exact Hm.
Qed.



Section RegularResampling.
Context {V : Type}.
Variable interpolate : list Q -> list V -> Q -> V.
Implicit Types (s : TimeSeries V).

Lemma start_lt_stop s : valid s -> (2 <= len s)%nat -> start s < stop s.
Proof.
  intros H Hlen. apply valid_sorted in H. unfold len, start, stop in *.
  destruct (t s) as [|a [|b l]]; cbn [length] in Hlen; try lia.
  apply StronglySorted_inv in H as [_ H]. rewrite Forall_forall in H.
  cbn [hd]. apply H.
  change (List.last (a :: b :: l) 0) with (List.last (b :: l) 0).
  destruct (exists_last (l := b :: l) ltac:(discriminate)) as (l' & z & E).
  rewrite E, last_last. apply in_or_app. right. now left.
Qed.

Lemma regular_resampled_ok s :
  valid s ->
  regular_resampled interpolate s
  = Ok (Build_TimeSeries (Np.linspace (start s) (stop s) (len s))
          (map (interpolate (t s) (y s))
             (Np.linspace (start s) (stop s) (len s)))).
Proof.
  intros Hs. unfold regular_resampled.
  rewrite valid_tmin, valid_tmax by exact Hs. cbn [bind].
  pose proof (valid_len s Hs) as Hlen.
  apply resampled_ok.
  - intros E. apply (f_equal (@length Q)) in E.
    rewrite linspace_length in E. simpl in E. lia.
  - destruct (Nat.eq_dec (len s) 1) as [->|Hne].
    + intros i Hi. simpl in Hi. lia.
    + apply linspace_increasing, start_lt_stop; [exact Hs | lia].
Qed.


End RegularResampling.


(* ================================================================== *)
(** * Further properties: resampling at a fixed rate *)
(* ================================================================== *)


Section FixedRate.
Context {V : Type}.
Variable interpolate : list Q -> list V -> Q -> V.
Implicit Types (s : TimeSeries V).





End FixedRate.



(* ================================================================== *)
(** * Further properties: zero padding *)
(* ================================================================== *)






Section ZeroPadding.
Context {V : Type}.
Variable zero : V.
Implicit Types (s : TimeSeries V).




End ZeroPadding.


(* ================================================================== *)
(** * Further properties: shifting and rescaling time *)
(* ================================================================== *)





Section Shift.
Context {V : Type}.
Implicit Types (s r : TimeSeries V).







End Shift.




(* ================================================================== *)
(** * Further properties: removing the mean *)
(* ================================================================== *)

Lemma sum_from (l : list Q) (a : Q) :
  fold_left Qplus l a == a + fold_left Qplus l 0.
Proof.
  revert a. induction l as [|x l IH]; intros a; cbn [fold_left]; [lra|].
  rewrite (IH (a + x)), (IH (0 + x)). lra.
Qed.

Lemma sum_minus (l : list Q) (m : Q) :
  fold_left Qplus (map (fun v => v - m) l) 0
  == fold_left Qplus l 0 - inject_Z (Z.of_nat (length l)) * m.
Proof.
  induction l as [|x l IH].
  - cbn [map fold_left length]. change (inject_Z (Z.of_nat 0)) with 0. lra.
  - cbn [map fold_left length].
    rewrite (sum_from _ (0 + (x - m))), (sum_from l (0 + x)), IH.
    rewrite Nat2Z.inj_succ. unfold Z.succ. rewrite inject_Z_plus.
    change (inject_Z 1) with 1. ring.
Qed.

Lemma mean_centered (l : list Q) :
  l <> [] -> mean (map (fun v => v - mean l) l) == 0.
Proof.
  intros Hne. unfold mean at 1. rewrite sum_minus, length_map.
  assert (Hn : ~ inject_Z (Z.of_nat (length l)) == 0).
  { change 0 with (inject_Z 0). rewrite inject_Z_injective.
    destruct l; [contradiction | simpl; lia]. }
  unfold mean. field. exact Hn.
Qed.

Lemma Forall2_map_near (f : Q -> Q) (l : list Q) :
  (forall x, f x == x) -> Forall2 Qeq (map f l) l.
Proof.
  intros H. induction l as [|x l IH]; constructor; auto.
Qed.

(** X17.  Removing the mean returns a series over the same times whose
    values are the original ones minus their mean; the mean of the
    result is zero, and removing the mean again changes nothing. *)
Theorem mean_removed_spec (s : TimeSeries Q) (Hs : valid s) :
  exists r,
    mean_removed s = Ok r /\
    t r = t s /\
    y r = map (fun v => v - mean (y s)) (y s) /\
    mean (y r) == 0 /\
    exists r2,
      mean_removed r = Ok r2 /\ t r2 = t r /\ Forall2 Qeq (y r2) (y r).
Proof.
  pose proof (valid_inv s Hs) as (Hne & Hlen & Hinc).
  assert (Hy : y s <> []).
  { intros E. rewrite E in Hlen. symmetry in Hlen.
    now apply length_zero_iff_nil in Hlen. }
  set (ys := map (fun v => v - mean (y s)) (y s)).
  assert (Hys : length ys = length (t s))
    by (unfold ys; now rewrite length_map).
  exists (Build_TimeSeries (t s) ys).
  split; [unfold mean_removed; now apply TimeSeries_init_ok|].
  split; [reflexivity|]. split; [reflexivity|].
  assert (Hmean : mean ys == 0) by now apply mean_centered.
  split; [exact Hmean|].
  exists (Build_TimeSeries (t s) (map (fun v => v - mean ys) ys)).
  split.
  - unfold mean_removed. cbn [t y data_x data_y].
    apply TimeSeries_init_ok; auto. now rewrite length_map.
  - split; [reflexivity|]. cbn [y data_y].
    apply Forall2_map_near. intros x. rewrite Hmean. lra.
Qed.

Lemma mean_removed_spec_witness :
  exists r,
    mean_removed (Build_TimeSeries [0; 1; 2] [1; 2; 6]) = Ok r /\
    mean (y r) == 0.
Proof.
  destruct (mean_removed_spec (Build_TimeSeries [0; 1; 2] [1; 2; 6]) eq_refl)
    as (r & Hr & _ & _ & Hm & _).
  exists r. split; [exact Hr | exact Hm].
Defined.

(* ================================================================== *)
(** * Further properties: the spectrum *)
(* ================================================================== *)





Section Spectrum.
Context {V C : Type}.
Variable interpolate : list Q -> list V -> Q -> V.
Variable fft : list V -> list C.
Implicit Types (s : TimeSeries V).

(** X18.  On a series of one point [to_FrequencySeries] raises
    [IndexError]: the regular resampling has one point and no time
    step. *)
Theorem to_FrequencySeries_single_point s (Hs : valid s)
  (Hlen : len s = 1%nat) :
  to_FrequencySeries interpolate fft s = Raise IndexError.
Proof.
  unfold to_FrequencySeries.
  rewrite regular_resampled_ok by exact Hs. cbn [bind]. now rewrite Hlen.
Qed.


End Spectrum.

Lemma to_FrequencySeries_single_point_witness :
  to_FrequencySeries floor_interpolate (fun v : list Z => v) late_point
  = Raise IndexError.
Proof.
  apply to_FrequencySeries_single_point; reflexivity.
Defined.


(* ================================================================== *)
(** * Further properties: small inputs and time length *)
(* ================================================================== *)

Section Small.
Context {V : Type}.
Variable interpolate : list Q -> list V -> Q -> V.
Variable savgol_filter : list V -> Z -> Z -> list V.
Implicit Types (s : TimeSeries V).

(** X20.  [sample_common] raises [ValueError] on an empty list, where
    [max] has nothing to choose from; on a list of one series it
    returns the regular resampling of that series. *)
Theorem sample_common_small :
  sample_common interpolate [] = Raise ValueError /\
  forall s, valid s ->
    exists ts,
      regular_resampled interpolate s = Ok ts /\
      sample_common interpolate [s] = Ok [ts].
Proof.
  split; [reflexivity|]. intros s Hs.
  eexists. split; [now apply regular_resampled_ok|].
  unfold sample_common, Py.max, Py.min, Py.extremum.
  cbn [Py.mapM bind]. rewrite valid_tmin, valid_tmax by exact Hs.
  cbn [bind combine Py.best_keyed snd Py.mapM].
  rewrite valid_tmin, valid_tmax by exact Hs. cbn [bind].
  fold (regular_resampled interpolate s).
  change (resampled interpolate s (Np.linspace (start s) (stop s) (len s)))
    with (bind (Ok (start s)) (fun a => bind (Ok (stop s)) (fun b =>
            resampled interpolate s (Np.linspace a b (len s))))).
  rewrite <- (valid_tmin s Hs), <- (valid_tmax s Hs).
  fold (regular_resampled interpolate s).
  now rewrite regular_resampled_ok.
Qed.

(** X21.  The time length of a series is never negative, and it is
    zero exactly for a series of one point. *)
Theorem time_length_nonneg s (Hs : valid s) :
  exists L,
    time_length s = Ok L /\ 0 <= L /\ (L == 0 <-> len s = 1%nat).
Proof.
  exists (stop s - start s).
  split; [now apply valid_time_length|].
  pose proof (start_le_stop s Hs) as Hle. split; [lra|].
  pose proof (valid_len s Hs) as Hlen. split.
  - intros E. destruct (Nat.eq_dec (len s) 1) as [H1|H1]; [exact H1|].
    pose proof (start_lt_stop s Hs ltac:(lia)). lra.
  - intros H1. unfold start, stop, len in *.
    destruct (t s) as [|a [|b l]]; try discriminate. cbn. lra.
Qed.

(** X22.  [savgol_smoothed_time] raises [IndexError] on a series of
    one point, where the resampled times have no second element.  On
    two points or more it calls [savgol_smoothed] on the series itself
    with an odd window, the rounded ratio of the smoothing time to the
    step of the regular resampling, plus one when even. *)
Theorem savgol_smoothed_time_window s (tsmooth : Q) (order : Z)
  (Hs : valid s) :
  (len s = 1%nat ->
     savgol_smoothed_time interpolate savgol_filter s tsmooth order
     = Raise IndexError) /\
  ((2 <= len s)%nat ->
     exists d, 
       d == (stop s - start s) / inject_Z (Z.of_nat (len s - 1)) /\
       Z.odd (savgol_window tsmooth d) = true /\
       savgol_smoothed_time interpolate savgol_filter s tsmooth order
       = savgol_smoothed savgol_filter s (savgol_window tsmooth d) order).
Proof.
  unfold savgol_smoothed_time.
  rewrite regular_resampled_ok by exact Hs. cbn [bind t data_x]. split.
  - intros ->. reflexivity.
  - intros Hlen.
    set (grid := Np.linspace (start s) (stop s) (len s)).
    exists (nth 1 grid 0 - nth 0 grid 0).
    split; [apply linspace_spacing; lia|].
    split; [apply savgol_window_odd|].
    assert (Hg : length grid = len s) by apply linspace_length.
    destruct grid as [|g0 [|g1 grid']]; cbn [length] in Hg; try lia.
    reflexivity.
Qed.

End Small.

Lemma time_length_nonneg_witness :
  exists L, time_length early_series = Ok L /\ 0 <= L.
Proof.
  destruct (time_length_nonneg early_series eq_refl) as (L & H & Hpos & _).
  exists L. split; [exact H | exact Hpos].
Defined.

Lemma sample_common_small_witness :
  exists ts,
    regular_resampled floor_interpolate early_series = Ok ts /\
    sample_common floor_interpolate [early_series] = Ok [ts].
Proof.
  apply (proj2 (sample_common_small floor_interpolate)). reflexivity.
Defined.

Lemma savgol_smoothed_time_window_witness :
  savgol_smoothed_time floor_interpolate (fun v _ _ => v) late_point 3 1
  = Raise IndexError.
Proof.
  apply (proj1 (savgol_smoothed_time_window floor_interpolate
                  (fun v _ _ => v) late_point 3 1 eq_refl)).
  reflexivity.
Defined.
